(** * EmaGPT: the live-conversation audio pipeline

    A shallow embedding of [src/components/LiveConversation.tsx]: the
    outbound sample encoder of [onaudioprocess], the session life cycle
    ([startSession], [stopSession], the [onopen] / [onmessage] / [onerror] /
    [onclose] callbacks), the inbound playback scheduler and the transcript
    aggregator.

    Conventions.
    - A JavaScript [number] that carries a time is an exact rational ([Q]);
      rounding of doubles is not modelled.
    - React state and the [useRef] cells are fields of one record; the
      callbacks are functions in a state-and-exception monad over it.
    - A value that a callback closes over (the [currentTranscription] of the
      render in which [startSession] ran) is an explicit argument.
    - Platform objects (promises, audio nodes, tracks) are handles; calls on
      them are recorded, in order, in a trace. Console output is left out.
    - [utils/helpers] is not part of the sources at hand: the result of
      [decodeAudioData(decode(...))] is an input of the message handler, and
      the outbound blob records the bytes that are passed to [encode]. *)

From Stdlib Require Import ZArith QArith Qminmax Qround Lqa Lia String List.
From stdpp Require Import base option list gmap strings.

Local Open Scope Z_scope.

(** ** Outbound encoder: [int16[i] = inputData[i] * 32768] *)

Module Encoder.

(** An element of the [Float32Array] handed to [onaudioprocess]. *)
Inductive Number :=
  | Finite (q : Q)
  | NaN
  | PosInfinity
  | NegInfinity.

(** [x * 32768]. Scaling a binary32 value by [2^15] is exact in double
    precision, so the product of a finite sample is its rational product. *)
Definition times32768 (x : Number) : Number :=
  match x with
  | Finite q => Finite (q * 32768)%Q
  | NaN => NaN
  | PosInfinity => PosInfinity
  | NegInfinity => NegInfinity
  end.

(** ECMAScript [truncate]: drop the fractional part, toward zero. *)
Definition truncate (q : Q) : Z := Z.quot (Qnum q) (Zpos (Qden q)).

(** ECMAScript [ToInt16], the conversion applied by a store into an
    [Int16Array]: not-a-number and the infinities become 0; otherwise
    truncate, reduce modulo [2^16], and read the result as signed. *)
Definition ToInt16 (x : Number) : Z :=
  match x with
  | Finite q =>
      let int := truncate q in
      let int16bit := int mod 65536 in
      if 32768 <=? int16bit then int16bit - 65536 else int16bit
  | NaN | PosInfinity | NegInfinity => 0
  end.

(** The body of the loop for one index. *)
Definition sample_to_int16 (x : Number) : Z := ToInt16 (times32768 x).

(** [inputData[i]]; an index past the end reads [undefined], whose product
    is not-a-number. *)
Definition read_sample (inputData : list Number) (i : nat) : Number :=
  default NaN (inputData !! i).

(** [for (let i = 0; i < l; i++) int16[i] = inputData[i] * 32768], with [k]
    iterations left to run from index [i]. *)
Fixpoint encode_loop (inputData : list Number) (int16 : list Z) (i k : nat)
  : list Z :=
  match k with
  | O => int16
  | S k' =>
      encode_loop inputData
        (<[i := sample_to_int16 (read_sample inputData i)]> int16) (S i) k'
  end.

(** [const l = inputData.length; const int16 = new Int16Array(l); for ...] *)
Definition to_int16_array (inputData : list Number) : list Z :=
  let l := length inputData in
  encode_loop inputData (replicate l 0) 0 l.

(** [new Uint8Array(int16.buffer)]: the two bytes of each sample, low byte
    first (the byte order of every platform the component runs on). *)
Definition int16_bytes (v : Z) : list Z :=
  let u := v mod 65536 in [u mod 256; u / 256].

Definition Uint8Array_of (int16 : list Z) : list Z :=
  concat (map int16_bytes int16).

End Encoder.

(** ** The component: state, platform handles and the trace *)

Module Live.
Import Encoder.

(** [{ user: string; model: string }] *)
Record TranscriptTurn := { user : string; model : string }.

Definition empty_turn : TranscriptTurn := {| user := ""; model := "" |}.

(** [Blob] of the SDK: the [data] field holds the bytes given to the
    base64 helper [encode] of [utils/helpers]. *)
Record Blob := { data : list Z; mimeType : string }.

(** A [MediaStream] with the handles of its hardware tracks. *)
Record MediaStream := { stream_id : nat; getTracks : list nat }.

(** An [AudioBuffer]: [duration = length / sampleRate]. *)
Record AudioBuffer := { frames : N; sampleRate : positive }.

Definition duration (b : AudioBuffer) : Q := Z.of_N (frames b) # sampleRate b.

(** A thrown value; [message] is absent when the value has no such field. *)
Record Error := { message : option string }.

(** How an awaited or throwing call ends. *)
Inductive Settled (A : Type) : Type :=
  | Fulfilled (a : A)
  | Rejected (e : Error).
Arguments Fulfilled {A} a.
Arguments Rejected {A} e.

(** The nullable [useRef] cells. *)
Inductive RefName :=
  | SessionPromiseRef
  | InputAudioContextRef
  | OutputAudioContextRef
  | MediaStreamRef
  | ScriptProcessorRef
  | MediaStreamSourceRef.

Inductive Target :=
  | ToNode (node : nat)
  | ToDestination (ctx : nat).

(** Calls on platform objects, and the writes whose order matters. *)
Inductive Effect :=
  | SessionClose (promise : nat)
      (* promise.then(session => session.close()) *)
  | SendRealtimeInput (promise : nat) (media : Blob)
      (* promise.then(session => session.sendRealtimeInput({ media })) *)
  | Disconnect (node : nat)
  | Connect (node : nat) (to : Target)
  | TrackStop (track : nat)
  | NewAudioContext (ctx : nat) (rate : Z)
  | SourceStart (source : nat) (ctx : nat) (buffer : AudioBuffer) (when : Q)
  | Discard (r : RefName)                    (* ref.current = null *)
  | SetIsSessionActive (b : bool).

Record ReactState := {
  isSessionActive : bool;
  transcriptions : list TranscriptTurn;
  currentTranscription : TranscriptTurn;
  error : option string
}.

Record Refs := {
  sessionPromiseRef : option nat;
  inputAudioContextRef : option nat;
  outputAudioContextRef : option nat;
  mediaStreamRef : option MediaStream;
  scriptProcessorRef : option nat;
  mediaStreamSourceRef : option nat;
  nextStartTimeRef : Q;
  audioSourcesRef : gset nat
}.

(** Component state plus the part of the platform it acts on: the tracks
    that are capturing, the next unused handle, and the trace so far. *)
Record World := {
  state : ReactState;
  refs : Refs;
  liveTracks : gset nat;
  nextObject : nat;
  trace : list Effect
}.

Definition with_state (f : ReactState → ReactState) (w : World) : World :=
  {| state := f (state w); refs := refs w; liveTracks := liveTracks w;
     nextObject := nextObject w; trace := trace w |}.

Definition with_refs (f : Refs → Refs) (w : World) : World :=
  {| state := state w; refs := f (refs w); liveTracks := liveTracks w;
     nextObject := nextObject w; trace := trace w |}.

Definition with_liveTracks (f : gset nat → gset nat) (w : World) : World :=
  {| state := state w; refs := refs w; liveTracks := f (liveTracks w);
     nextObject := nextObject w; trace := trace w |}.

Definition with_nextObject (n : nat) (w : World) : World :=
  {| state := state w; refs := refs w; liveTracks := liveTracks w;
     nextObject := n; trace := trace w |}.

Definition with_trace (f : list Effect → list Effect) (w : World) : World :=
  {| state := state w; refs := refs w; liveTracks := liveTracks w;
     nextObject := nextObject w; trace := f (trace w) |}.

Definition put_isSessionActive (b : bool) (s : ReactState) : ReactState :=
  {| isSessionActive := b; transcriptions := transcriptions s;
     currentTranscription := currentTranscription s; error := error s |}.

Definition put_transcriptions (f : list TranscriptTurn → list TranscriptTurn)
    (s : ReactState) : ReactState :=
  {| isSessionActive := isSessionActive s;
     transcriptions := f (transcriptions s);
     currentTranscription := currentTranscription s; error := error s |}.

Definition put_currentTranscription (f : TranscriptTurn → TranscriptTurn)
    (s : ReactState) : ReactState :=
  {| isSessionActive := isSessionActive s; transcriptions := transcriptions s;
     currentTranscription := f (currentTranscription s); error := error s |}.

Definition put_error (e : option string) (s : ReactState) : ReactState :=
  {| isSessionActive := isSessionActive s; transcriptions := transcriptions s;
     currentTranscription := currentTranscription s; error := e |}.

Definition put_sessionPromiseRef (v : option nat) (r : Refs) : Refs :=
  {| sessionPromiseRef := v;
     inputAudioContextRef := inputAudioContextRef r;
     outputAudioContextRef := outputAudioContextRef r;
     mediaStreamRef := mediaStreamRef r;
     scriptProcessorRef := scriptProcessorRef r;
     mediaStreamSourceRef := mediaStreamSourceRef r;
     nextStartTimeRef := nextStartTimeRef r;
     audioSourcesRef := audioSourcesRef r |}.

Definition put_inputAudioContextRef (v : option nat) (r : Refs) : Refs :=
  {| sessionPromiseRef := sessionPromiseRef r;
     inputAudioContextRef := v;
     outputAudioContextRef := outputAudioContextRef r;
     mediaStreamRef := mediaStreamRef r;
     scriptProcessorRef := scriptProcessorRef r;
     mediaStreamSourceRef := mediaStreamSourceRef r;
     nextStartTimeRef := nextStartTimeRef r;
     audioSourcesRef := audioSourcesRef r |}.

Definition put_outputAudioContextRef (v : option nat) (r : Refs) : Refs :=
  {| sessionPromiseRef := sessionPromiseRef r;
     inputAudioContextRef := inputAudioContextRef r;
     outputAudioContextRef := v;
     mediaStreamRef := mediaStreamRef r;
     scriptProcessorRef := scriptProcessorRef r;
     mediaStreamSourceRef := mediaStreamSourceRef r;
     nextStartTimeRef := nextStartTimeRef r;
     audioSourcesRef := audioSourcesRef r |}.

Definition put_mediaStreamRef (v : option MediaStream) (r : Refs) : Refs :=
  {| sessionPromiseRef := sessionPromiseRef r;
     inputAudioContextRef := inputAudioContextRef r;
     outputAudioContextRef := outputAudioContextRef r;
     mediaStreamRef := v;
     scriptProcessorRef := scriptProcessorRef r;
     mediaStreamSourceRef := mediaStreamSourceRef r;
     nextStartTimeRef := nextStartTimeRef r;
     audioSourcesRef := audioSourcesRef r |}.

Definition put_scriptProcessorRef (v : option nat) (r : Refs) : Refs :=
  {| sessionPromiseRef := sessionPromiseRef r;
     inputAudioContextRef := inputAudioContextRef r;
     outputAudioContextRef := outputAudioContextRef r;
     mediaStreamRef := mediaStreamRef r;
     scriptProcessorRef := v;
     mediaStreamSourceRef := mediaStreamSourceRef r;
     nextStartTimeRef := nextStartTimeRef r;
     audioSourcesRef := audioSourcesRef r |}.

Definition put_mediaStreamSourceRef (v : option nat) (r : Refs) : Refs :=
  {| sessionPromiseRef := sessionPromiseRef r;
     inputAudioContextRef := inputAudioContextRef r;
     outputAudioContextRef := outputAudioContextRef r;
     mediaStreamRef := mediaStreamRef r;
     scriptProcessorRef := scriptProcessorRef r;
     mediaStreamSourceRef := v;
     nextStartTimeRef := nextStartTimeRef r;
     audioSourcesRef := audioSourcesRef r |}.

Definition put_nextStartTimeRef (v : Q) (r : Refs) : Refs :=
  {| sessionPromiseRef := sessionPromiseRef r;
     inputAudioContextRef := inputAudioContextRef r;
     outputAudioContextRef := outputAudioContextRef r;
     mediaStreamRef := mediaStreamRef r;
     scriptProcessorRef := scriptProcessorRef r;
     mediaStreamSourceRef := mediaStreamSourceRef r;
     nextStartTimeRef := v;
     audioSourcesRef := audioSourcesRef r |}.

Definition put_audioSourcesRef (f : gset nat → gset nat) (r : Refs) : Refs :=
  {| sessionPromiseRef := sessionPromiseRef r;
     inputAudioContextRef := inputAudioContextRef r;
     outputAudioContextRef := outputAudioContextRef r;
     mediaStreamRef := mediaStreamRef r;
     scriptProcessorRef := scriptProcessorRef r;
     mediaStreamSourceRef := mediaStreamSourceRef r;
     nextStartTimeRef := nextStartTimeRef r;
     audioSourcesRef := f (audioSourcesRef r) |}.

(** [ref.current = null] for the cell named [r]. *)
Definition put_null (r : RefName) : Refs → Refs :=
  match r with
  | SessionPromiseRef => put_sessionPromiseRef None
  | InputAudioContextRef => put_inputAudioContextRef None
  | OutputAudioContextRef => put_outputAudioContextRef None
  | MediaStreamRef => put_mediaStreamRef None
  | ScriptProcessorRef => put_scriptProcessorRef None
  | MediaStreamSourceRef => put_mediaStreamSourceRef None
  end.

(** ** A state-and-exception monad for the callbacks *)

Inductive Outcome (A : Type) : Type :=
  | Returns (a : A) (w : World)
  | Throws (e : Error) (w : World).
Arguments Returns {A} a w.
Arguments Throws {A} e w.

Definition M (A : Type) : Type := World → Outcome A.

#[global] Instance M_ret : MRet M := λ A a w, Returns a w.

#[global] Instance M_bind : MBind M := λ A B f m w,
  match m w with
  | Returns a w' => f a w'
  | Throws e w' => Throws e w'
  end.

Definition get {A} (f : World → A) : M A := λ w, Returns (f w) w.
Definition modify (f : World → World) : M unit := λ w, Returns tt (f w).
Definition throw {A} (e : Error) : M A := λ w, Throws e w.

Definition emit (e : Effect) : M unit :=
  modify (with_trace (λ t, t ++ [e])).

(** The world an outcome ends in, whether by return or by throw. *)
Definition world_of {A} (o : Outcome A) : World :=
  match o with Returns _ w => w | Throws _ w => w end.

Definition TypeError : Error :=
  {| message := Some "Cannot read properties of null" |}.

(** The receiver of a method call: a call on [null] throws. *)
Definition deref {A} (o : option A) : M A :=
  match o with Some a => mret a | None => throw TypeError end.

(** [try { body } catch (err) { handler }] *)
Definition try_catch {A} (body : M A) (handler : Error → M A) : M A := λ w,
  match body w with
  | Returns a w' => Returns a w'
  | Throws e w' => handler e w'
  end.

(** Truthiness of a nullable reference. *)
Definition truthy {A} (o : option A) : bool :=
  match o with Some _ => true | None => false end.

Definition when (b : bool) (m : M unit) : M unit :=
  if b then m else mret tt.

Fixpoint forEach {A} (l : list A) (f : A → M unit) : M unit :=
  match l with
  | [] => mret tt
  | x :: l' => f x ;; forEach l' f
  end.

(** A handle for a newly created platform object. *)
Definition new_object : M nat := λ w,
  Returns (nextObject w) (with_nextObject (S (nextObject w)) w).

Definition discard (r : RefName) : M unit :=
  modify (with_refs (put_null r)) ;; emit (Discard r).

Definition setIsSessionActive (b : bool) : M unit :=
  modify (with_state (put_isSessionActive b)) ;; emit (SetIsSessionActive b).

Definition setError (e : option string) : M unit :=
  modify (with_state (put_error e)).

Definition setTranscriptions
    (f : list TranscriptTurn → list TranscriptTurn) : M unit :=
  modify (with_state (put_transcriptions f)).

Definition setCurrentTranscription
    (f : TranscriptTurn → TranscriptTurn) : M unit :=
  modify (with_state (put_currentTranscription f)).

(** [track.stop()]: the track stops capturing. *)
Definition track_stop (t : nat) : M unit :=
  modify (with_liveTracks (λ l, l ∖ {[t]})) ;; emit (TrackStop t).

(** ** [stopSession] *)

Definition stopSession : M unit :=
  (p ← get (sessionPromiseRef ∘ refs);
   when (truthy p)
     (promise ← get (sessionPromiseRef ∘ refs) ≫= deref;
      emit (SessionClose promise) ;;
      discard SessionPromiseRef)) ;;
  (n ← get (scriptProcessorRef ∘ refs);
   when (truthy n)
     (node ← get (scriptProcessorRef ∘ refs) ≫= deref;
      emit (Disconnect node) ;;
      discard ScriptProcessorRef)) ;;
  (n ← get (mediaStreamSourceRef ∘ refs);
   when (truthy n)
     (node ← get (mediaStreamSourceRef ∘ refs) ≫= deref;
      emit (Disconnect node) ;;
      discard MediaStreamSourceRef)) ;;
  (s ← get (mediaStreamRef ∘ refs);
   when (truthy s)
     (stream ← get (mediaStreamRef ∘ refs) ≫= deref;
      forEach (getTracks stream) track_stop ;;
      discard MediaStreamRef)) ;;
  setIsSessionActive false.

(** ** [startSession] *)

(** What the callbacks created by one run of [startSession] close over:
    the [currentTranscription] constant of the render whose [startSession]
    was invoked. ([stopSession] and the setters are stable; the refs are
    read through [.current].) *)
Record Closure := { captured_currentTranscription : TranscriptTurn }.

(** [haystack.includes(needle)] *)
Fixpoint includes (needle haystack : string) : bool :=
  if String.prefix needle haystack then true
  else match haystack with
       | EmptyString => false
       | String _ rest => includes needle rest
       end.

Definition api_key_message : string :=
  "API Key error or model access issue. Please check your API key and that you have access to the Live API model.".

Definition generic_start_message : string :=
  "Could not access microphone or start session. Please check permissions.".

(** The synchronous prefix, up to [await getUserMedia]. The closure is
    formed in the scope of the render that is current when the handler
    runs, so it holds that render's [currentTranscription]. *)
Definition startSession_begin : M Closure :=
  rendered ← get (currentTranscription ∘ state);
  setError None ;;
  setIsSessionActive true ;;
  setTranscriptions (λ _, []) ;;
  setCurrentTranscription (λ _, empty_turn) ;;
  mret {| captured_currentTranscription := rendered |}.

(** [await navigator.mediaDevices.getUserMedia({ audio: true })]: a granted
    stream comes with its tracks capturing. *)
Definition getUserMedia (r : Settled MediaStream) : M MediaStream :=
  match r with
  | Fulfilled stream =>
      modify (with_liveTracks (λ l, l ∪ list_to_set (getTracks stream))) ;;
      mret stream
  | Rejected e => throw e
  end.

(** [new GoogleGenAI(...)] followed by [ai.live.connect(...)]: the pair
    either yields the session promise or throws. *)
Definition connect (r : Settled nat) : M nat :=
  match r with
  | Fulfilled promise => mret promise
  | Rejected e => throw e
  end.

(** The [catch (err: any)] block. *)
Definition startSession_catch (err : Error) : M unit :=
  (if default false (includes "Requested entity was not found" <$> message err)
   then setError (Some api_key_message)
   else setError (Some generic_start_message)) ;;
  setIsSessionActive false.

(** The [try] block from the point where [getUserMedia] settles. *)
Definition startSession_resume (media : Settled MediaStream)
    (session : Settled nat) : M unit :=
  try_catch
    (stream ← getUserMedia media;
     modify (with_refs (put_mediaStreamRef (Some stream))) ;;
     sessionPromise ← connect session;
     modify (with_refs (put_sessionPromiseRef (Some sessionPromise))))
    startSession_catch.

(** ** The session callbacks *)

(** [new AudioContext({ sampleRate })] *)
Definition new_AudioContext (rate : Z) : M nat :=
  ctx ← new_object; emit (NewAudioContext ctx rate) ;; mret ctx.

Definition pcm_mimeType : string := "audio/pcm;rate=16000".

(** [scriptProcessor.onaudioprocess] *)
Definition onaudioprocess (inputData : list Number) : M unit :=
  let int16 := to_int16_array inputData in
  let pcmBlob :=
    {| data := Uint8Array_of int16; mimeType := pcm_mimeType |} in
  p ← get (sessionPromiseRef ∘ refs);
  match p with                         (* sessionPromiseRef.current?.then *)
  | Some promise => emit (SendRealtimeInput promise pcmBlob)
  | None => mret tt
  end.

Definition onopen : M unit :=
  s ← get (mediaStreamRef ∘ refs);
  if negb (truthy s) then mret tt
  else
    (ictx ← new_AudioContext 16000;
     modify (with_refs (put_inputAudioContextRef (Some ictx)))) ;;
    (octx ← new_AudioContext 24000;
     modify (with_refs (put_outputAudioContextRef (Some octx)))) ;;
    (_ ← get (inputAudioContextRef ∘ refs) ≫= deref;
     source ← new_object;
     modify (with_refs (put_mediaStreamSourceRef (Some source))) ;;
     _ ← get (inputAudioContextRef ∘ refs) ≫= deref;
     scriptProcessor ← new_object;
     modify (with_refs (put_scriptProcessorRef (Some scriptProcessor))) ;;
     emit (Connect source (ToNode scriptProcessor)) ;;
     ictx ← get (inputAudioContextRef ∘ refs) ≫= deref;
     emit (Connect scriptProcessor (ToDestination ictx))).

(** A [LiveServerMessage], reduced to the fields the handler reads:
    [serverContent?.inputTranscription] and [outputTranscription] (their
    text), [serverContent?.turnComplete], and
    [serverContent?.modelTurn?.parts[0]?.inlineData?.data]. *)
Record LiveServerMessage := {
  inputTranscription : option string;
  outputTranscription : option string;
  turnComplete : bool;
  inlineData : option string
}.

(** A string is falsy exactly when it is empty. *)
Definition truthy_string (o : option string) : bool :=
  match o with
  | Some s => negb (String.eqb s "")
  | None => false
  end.

(** [onmessage] up to [await decodeAudioData(...)]. [now] is the reading of
    [outputCtx.currentTime]. Returns the output context bound to
    [outputCtx] when the handler goes on to decode and schedule. *)
Definition onmessage_begin (cl : Closure) (now : Q)
    (message : LiveServerMessage) : M (option nat) :=
  match inputTranscription message with
  | Some text =>
      setCurrentTranscription
        (λ prev, {| user := user prev +:+ text; model := model prev |})
  | None => mret tt
  end ;;
  match outputTranscription message with
  | Some text =>
      setCurrentTranscription
        (λ prev, {| user := user prev; model := model prev +:+ text |})
  | None => mret tt
  end ;;
  when (turnComplete message)
    (setTranscriptions (λ prev, prev ++ [captured_currentTranscription cl]) ;;
     setCurrentTranscription (λ _, empty_turn)) ;;
  octx ← get (outputAudioContextRef ∘ refs);
  if truthy_string (inlineData message) && truthy octx then
    outputCtx ← get (outputAudioContextRef ∘ refs) ≫= deref;
    cursor ← get (nextStartTimeRef ∘ refs);
    modify (with_refs (put_nextStartTimeRef (Qmax cursor now))) ;;
    mret (Some outputCtx)
  else mret None.

(** [onmessage] from the point where [decodeAudioData(decode(base64Audio),
    outputCtx, 24000, 1)] settles with [decoded]. *)
Definition onmessage_resume (outputCtx : nat) (decoded : Settled AudioBuffer)
  : M unit :=
  match decoded with
  | Rejected e => throw e
  | Fulfilled audioBuffer =>
      source ← new_object;
      emit (Connect source (ToDestination outputCtx)) ;;
      start ← get (nextStartTimeRef ∘ refs);
      emit (SourceStart source outputCtx audioBuffer start) ;;
      cursor ← get (nextStartTimeRef ∘ refs);
      modify (with_refs
                (put_nextStartTimeRef (cursor + duration audioBuffer)%Q)) ;;
      modify (with_refs (put_audioSourcesRef (λ s, s ∪ {[source]})))
  end.

(** One message handled without anything running between the two halves;
    [decoded] is the result of [decodeAudioData] on the message's payload
    and is not looked at when the message carries none. *)
Definition onmessage (cl : Closure) (now : Q) (message : LiveServerMessage)
    (decoded : Settled AudioBuffer) : M unit :=
  pending ← onmessage_begin cl now message;
  match pending with
  | Some outputCtx => onmessage_resume outputCtx decoded
  | None => mret tt
  end.

(** The ['ended'] listener of a scheduled source. *)
Definition on_source_ended (source : nat) : M unit :=
  modify (with_refs (put_audioSourcesRef (λ s, s ∖ {[source]}))).

Definition session_error_message (msg : string) : string :=
  "Session error: " +:+ msg +:+ ". Please try again.".

(** [onerror: (e: ErrorEvent) => ...], with [msg] the text of [e.message]. *)
Definition onerror (msg : string) : M unit :=
  setError (Some (session_error_message msg)) ;;
  stopSession.

Definition onclose : M unit := setIsSessionActive false.

(** ** The component as an event-driven machine *)

(** The state at mount: the [useState] and [useRef] initial values. *)
Definition mount : World :=
  {| state := {| isSessionActive := false; transcriptions := [];
                 currentTranscription := empty_turn; error := None |};
     refs := {| sessionPromiseRef := None; inputAudioContextRef := None;
                outputAudioContextRef := None; mediaStreamRef := None;
                scriptProcessorRef := None; mediaStreamSourceRef := None;
                nextStartTimeRef := 0%Q; audioSourcesRef := ∅ |};
     liveTracks := ∅; nextObject := O; trace := [] |}.

(** Everything that can run on the event loop. A task that throws ends
    there; the loop goes on from the world it left. *)
Inductive Event :=
  | ClickStart
  | StartResumes (media : Settled MediaStream) (session : Settled nat)
  | ClickStop                                  (* also the unmount cleanup *)
  | SessionOpens
  | MessageArrives (cl : Closure) (now : Q) (message : LiveServerMessage)
  | DecodeSettles (outputCtx : nat) (decoded : Settled AudioBuffer)
  | SessionErrors (msg : string)
  | SessionCloses
  | AudioProcess (inputData : list Number)
  | SourceEnds (source : nat).

Definition step (ev : Event) (w : World) : World :=
  match ev with
  | ClickStart => world_of (startSession_begin w)
  | StartResumes media session => world_of (startSession_resume media session w)
  | ClickStop => world_of (stopSession w)
  | SessionOpens => world_of (onopen w)
  | MessageArrives cl now message => world_of (onmessage_begin cl now message w)
  | DecodeSettles outputCtx decoded => world_of (onmessage_resume outputCtx decoded w)
  | SessionErrors msg => world_of (onerror msg w)
  | SessionCloses => world_of (onclose w)
  | AudioProcess inputData => world_of (onaudioprocess inputData w)
  | SourceEnds source => world_of (on_source_ended source w)
  end.

Definition run (evs : list Event) (w : World) : World :=
  fold_left (λ w ev, step ev w) evs w.

(** ** Notions used to state the properties *)

(** The PlaybackCursor. *)
Definition cursor (w : World) : Q := nextStartTimeRef (refs w).

Definition tracks_of (s : option MediaStream) : list nat :=
  match s with Some stream => getTracks stream | None => [] end.

(** The teardown in the order of section 4.6, each step present when the
    resource it acts on is held: session close, processing node, source
    node, hardware tracks, and the active flag last. *)
Definition teardown_plan (r : Refs) : list Effect :=
  match sessionPromiseRef r with
  | Some promise => [SessionClose promise; Discard SessionPromiseRef]
  | None => []
  end ++
  match scriptProcessorRef r with
  | Some node => [Disconnect node; Discard ScriptProcessorRef]
  | None => []
  end ++
  match mediaStreamSourceRef r with
  | Some node => [Disconnect node; Discard MediaStreamSourceRef]
  | None => []
  end ++
  match mediaStreamRef r with
  | Some stream => map TrackStop (getTracks stream) ++ [Discard MediaStreamRef]
  | None => []
  end ++
  [SetIsSessionActive false].

(** The refs with the four resources of a session released and every
    other cell as it was. *)
Definition released (r : Refs) : Refs :=
  {| sessionPromiseRef := None;
     inputAudioContextRef := inputAudioContextRef r;
     outputAudioContextRef := outputAudioContextRef r;
     mediaStreamRef := None;
     scriptProcessorRef := None;
     mediaStreamSourceRef := None;
     nextStartTimeRef := nextStartTimeRef r;
     audioSourcesRef := audioSourcesRef r |}.

(** The world [stopSession] leaves. *)
Definition stopped (w : World) : World :=
  {| state := put_isSessionActive false (state w);
     refs := released (refs w);
     liveTracks := liveTracks w ∖ list_to_set (tracks_of (mediaStreamRef (refs w)));
     nextObject := nextObject w;
     trace := trace w ++ teardown_plan (refs w) |}.

(** The effects a teardown may consist of. *)
Definition is_teardown_effect (e : Effect) : bool :=
  match e with
  | SessionClose _ | Disconnect _ | TrackStop _ | Discard _
  | SetIsSessionActive false => true
  | _ => false
  end.

(** The only event that stores a session promise. *)
Definition is_start_resume (ev : Event) : bool :=
  match ev with StartResumes _ _ => true | _ => false end.

(** The start time and duration of every [source.start] in a trace, in the
    order of the calls. *)
Definition scheduled (t : list Effect) : list (Q * Q) :=
  omap (λ e, match e with
             | SourceStart _ _ buffer start => Some (start, duration buffer)
             | _ => None
             end) t.

(** Each scheduled chunk begins no earlier than the one before it ends. *)
Definition no_overlap (l : list (Q * Q)) : Prop :=
  ∀ (i : nat) (s1 d1 s2 d2 : Q),
    l !! i = Some (s1, d1) → l !! S i = Some (s2, d2) → (s1 + d1 <= s2)%Q.

(** An inbound message that carries audio, with the clock reading at its
    arrival and the buffer its payload decodes to. *)
Record Chunk := {
  arrival : Q;
  chunk_message : LiveServerMessage;
  chunk_buffer : AudioBuffer
}.






(** Idle time: for each chunk, how far the clock had run past the cursor
    when the chunk arrived. *)
Fixpoint underrun (cur : Q) (chunks : list Chunk) : Q :=
  match chunks with
  | [] => 0%Q
  | c :: rest =>
      (Qmax 0 (arrival c - cur)
       + underrun (Qmax cur (arrival c) + duration (chunk_buffer c)) rest)%Q
  end.

End Live.

(** ** Concrete sessions *)

Module Scenarios.
Import Encoder Live.

Definition microphone : MediaStream := {| stream_id := 0; getTracks := [7%nat] |}.

Definition one_second : AudioBuffer := {| frames := 24000; sampleRate := 24000 |}.

Definition fragment (user_text model_text : option string) (audio : option string)
  : LiveServerMessage :=
  {| inputTranscription := user_text; outputTranscription := model_text;
     turnComplete := false; inlineData := audio |}.

Definition turn_complete : LiveServerMessage :=
  {| inputTranscription := None; outputTranscription := None;
     turnComplete := true; inlineData := None |}.

(** Mount, press Start, microphone granted, session promise 1 returned,
    session opens. Returns the closure of the session's callbacks. *)
Definition open_session : M Closure :=
  cl ← startSession_begin;
  startSession_resume (Fulfilled microphone) (Fulfilled 1%nat) ;;
  onopen ;;
  mret cl.

(** Three messages with audio and transcript fragments. The clock stands
    at 0 throughout. *)
Definition three_fragments : M Closure :=
  cl ← open_session;
  onmessage cl 0 (fragment (Some "hello ") None (Some "UklG")) (Fulfilled one_second) ;;
  onmessage cl 0 (fragment (Some "world") None (Some "UklG")) (Fulfilled one_second) ;;
  onmessage cl 0 (fragment None (Some "hi") (Some "UklG")) (Fulfilled one_second) ;;
  mret cl.

(** The same, then the turn-complete marker. *)
Definition one_turn : M unit :=
  cl ← three_fragments;
  onmessage cl 0 turn_complete (Fulfilled one_second).

(** Start with the microphone granted, then the client cannot be built. *)
Definition missing_api_key : Error :=
  {| message := Some "An API Key must be set when running in a browser" |}.

Definition start_fails_after_microphone : M unit :=
  _ ← startSession_begin;
  startSession_resume (Fulfilled microphone) (Rejected missing_api_key).

(** Start with the microphone refused. *)
Definition permission_denied : Error :=
  {| message := Some "Permission denied" |}.

Definition start_fails_at_microphone : M unit :=
  _ ← startSession_begin;
  startSession_resume (Rejected permission_denied) (Fulfilled 1%nat).

(** An open session that the remote end closes. *)
Definition remote_close : M unit :=
  _ ← open_session; onclose.

(** One chunk played in a first session, Stop, Start again. *)
Definition second_start : M Closure :=
  cl ← open_session;
  onmessage cl 0 (fragment None None (Some "UklG")) (Fulfilled one_second) ;;
  stopSession ;;
  startSession_begin.


(** Stop pressed while [getUserMedia] is still pending; the permission
    prompt is then answered and the client connects. *)
Definition stop_during_start : list Event :=
  [ClickStart; ClickStop; StartResumes (Fulfilled microphone) (Fulfilled 1%nat)].



End Scenarios.

(** ** Reading the outbound bytes back *)

Module Pcm.
Import Encoder.

(** One little-endian pair read as a signed 16-bit integer, as an
    [Int16Array] over the same buffer reads it. *)
Definition int16_of_bytes (lo hi : Z) : Z :=
  let u := lo + 256 * hi in
  if 32768 <=? u then u - 65536 else u.

(** [new Int16Array(bytes.buffer)]; a trailing odd byte belongs to no
    element. *)
Fixpoint Int16Array_of (bytes : list Z) : list Z :=
  match bytes with
  | lo :: hi :: rest => int16_of_bytes lo hi :: Int16Array_of rest
  | _ => []
  end.

End Pcm.

(** ** Message sequences *)

Module Messages.
Import Encoder Live.

(** The messages of a list handed to [onmessage] one after the other, each
    with the clock reading at its arrival; the handlers are left suspended
    at their [await]. *)
Definition arrivals (cl : Closure) (msgs : list (Q * LiveServerMessage))
  : list Event :=
  map (λ m, MessageArrives cl m.1 m.2) msgs.

(** All user (model) transcript fragments of a list of messages, joined in
    arrival order. *)
Fixpoint user_fragments (msgs : list (Q * LiveServerMessage)) : string :=
  match msgs with
  | [] => ""
  | m :: rest => default "" (inputTranscription m.2) +:+ user_fragments rest
  end.

Fixpoint model_fragments (msgs : list (Q * LiveServerMessage)) : string :=
  match msgs with
  | [] => ""
  | m :: rest => default "" (outputTranscription m.2) +:+ model_fragments rest
  end.

(** How many of the messages carry the turn-complete marker. *)
Fixpoint turn_completes (msgs : list (Q * LiveServerMessage)) : nat :=
  match msgs with
  | [] => O
  | m :: rest =>
      ((if turnComplete m.2 then 1 else 0) + turn_completes rest)%nat
  end.

(** The handles of the sources started in a trace. *)
Definition started (t : list Effect) : list nat :=
  omap (λ e, match e with
             | SourceStart source _ _ _ => Some source
             | _ => None
             end) t.

(** Press Start, microphone granted, client connected, session open, one
    block of samples captured. *)
Definition session_to_first_block (stream : MediaStream) (promise : nat)
    (inputData : list Number) : list Event :=
  [ClickStart; StartResumes (Fulfilled stream) (Fulfilled promise);
   SessionOpens; AudioProcess inputData].

(** Press Start, microphone granted, client connected, Stop pressed before
    the session has opened, then the open signal arrives. *)
Definition stop_while_opening (stream : MediaStream) (promise : nat)
  : list Event :=
  [ClickStart; StartResumes (Fulfilled stream) (Fulfilled promise);
   ClickStop; SessionOpens].

(** A session from the moment the microphone is granted: whatever happens
    next, and then Stop. *)
Definition session_then_stop (stream : MediaStream) (session : Settled nat)
    (evs : list Event) : list Event :=
  StartResumes (Fulfilled stream) session :: evs ++ [ClickStop].

End Messages.

(** ** [App]: the feature switch around the panel *)

Module AppShell.
Import Live.

(** The [name] column of the [features] table, in order. *)
Definition features : list string :=
  ["Chatbot"; "Image Generation"; "Nano Banana"; "Image Editor";
   "Content Analyzer"; "Video Generation"; "Live Conversation";
   "Grounded Search"; "Creative Studio"; "Text to Speech"].

Inductive Panel :=
  | Chatbot
  | ImageGenerator
  | NanoBanana
  | ImageEditor
  | ContentAnalyzer
  | VideoGenerator
  | LiveConversation
  | GroundedSearch
  | CreativeStudio
  | TextToSpeech.

(** [renderFeature]: the [switch] on [activeFeature]; [None] is the
    [default: return null]. The value is a string at run time (the
    [select] hands over [e.target.value]). *)
Definition renderFeature (activeFeature : string) : option Panel :=
  if String.eqb activeFeature "Chatbot" then Some Chatbot
  else if String.eqb activeFeature "Image Generation" then Some ImageGenerator
  else if String.eqb activeFeature "Nano Banana" then Some NanoBanana
  else if String.eqb activeFeature "Image Editor" then Some ImageEditor
  else if String.eqb activeFeature "Content Analyzer" then Some ContentAnalyzer
  else if String.eqb activeFeature "Video Generation" then Some VideoGenerator
  else if String.eqb activeFeature "Live Conversation" then Some LiveConversation
  else if String.eqb activeFeature "Grounded Search" then Some GroundedSearch
  else if String.eqb activeFeature "Creative Studio" then Some CreativeStudio
  else if String.eqb activeFeature "Text to Speech" then Some TextToSpeech
  else None.

(** The app: which feature is selected, and the world of the live panel.
    The state and refs in [world] belong to the mounted instance of
    [LiveConversation] and mean nothing while another panel is shown; the
    tracks, handles and trace belong to the page. *)
Record AppState := { activeFeature : string; world : World }.

(** [useState<Feature>('Chatbot')] *)
Definition App_initial : AppState :=
  {| activeFeature := "Chatbot"; world := mount |}.

Definition shows_live (name : string) : bool :=
  match renderFeature name with
  | Some LiveConversation => true
  | _ => false
  end.

(** A new instance of [LiveConversation]: its [useState] and [useRef]
    values are the initial ones; the page keeps its tracks, handles and
    trace. *)
Definition mounted (w : World) : World :=
  {| state := state mount; refs := refs mount; liveTracks := liveTracks w;
     nextObject := nextObject w; trace := trace w |}.

(** [setActiveFeature(name)] and the render that follows. Setting the
    value it already has renders nothing anew. Otherwise the panel that
    was shown is unmounted, which for [LiveConversation] runs the cleanup
    of its effect ([stopSession]), and the panel for [name] is mounted. *)
Definition setActiveFeature (name : string) (a : AppState) : AppState :=
  if String.eqb name (activeFeature a) then a
  else
    let left_ :=
      if shows_live (activeFeature a) then world_of (stopSession (world a))
      else world a in
    {| activeFeature := name;
       world := if shows_live name then mounted left_ else left_ |}.

End AppShell.

(** ** [Chatbot]: [src/components/Chatbot.tsx] *)

Module Chat.

Inductive Role := user | model.

(** [ChatMessage] of [types.ts]. *)
Record ChatMessage := { role : Role; text : string }.

(** The component's [useState] values, and of the page: the calls of
    [chat.sendMessage] made so far (chat handle and message text, in
    order) and how many of them have not settled yet. *)
Record ChatState := {
  chat : option nat;
  messages : list ChatMessage;
  input : string;
  isLoading : bool;
  error : option string;
  sent : list (nat * string);
  pending : nat
}.

Definition greeting : ChatMessage :=
  {| role := model; text := "Hello! How can I help you today?" |}.

Definition apology : ChatMessage :=
  {| role := model; text := "Sorry, I encountered an error. Please try again." |}.

Definition init_failed : string :=
  "Failed to initialize the AI. Please check your API key.".

Definition api_key_error : string :=
  "API Key error. Please check your API key setup.".

Definition response_error : string :=
  "An error occurred while getting a response.".

(** The state before the mount effect has run. *)
Definition initial : ChatState :=
  {| chat := None; messages := []; input := ""; isLoading := false;
     error := None; sent := []; pending := O |}.

(** [initializeChat]; [created] is how [new GoogleGenAI(...)] followed by
    [ai.chats.create(...)] ends. *)
Definition initializeChat (created : Live.Settled nat) (s : ChatState)
  : ChatState :=
  match created with
  | Live.Fulfilled newChat =>
      {| chat := Some newChat; messages := [greeting]; input := "";
         isLoading := isLoading s; error := None;
         sent := sent s; pending := pending s |}
  | Live.Rejected _ =>
      {| chat := chat s; messages := messages s; input := input s;
         isLoading := isLoading s; error := Some init_failed;
         sent := sent s; pending := pending s |}
  end.

(** [setInput(e.target.value)] *)
Definition setInput (value : string) (s : ChatState) : ChatState :=
  {| chat := chat s; messages := messages s; input := value;
     isLoading := isLoading s; error := error s;
     sent := sent s; pending := pending s |}.

(** The model message a settled request adds. *)
Definition answer (r : Live.Settled string) : ChatMessage :=
  match r with
  | Live.Fulfilled reply => {| role := model; text := reply |}
  | Live.Rejected _ => apology
  end.

Section Trim.

(** [!input.trim()]: whether a string consists of white space only. *)
Variable blank : string → bool.

(** [handleSendMessage] up to [await chat.sendMessage(...)]. *)
Definition handleSendMessage_begin (s : ChatState) : ChatState :=
  match chat s with
  | Some c =>
      if blank (input s) || isLoading s then s
      else
        {| chat := chat s;
           messages := messages s ++ [{| role := user; text := input s |}];
           input := "";
           isLoading := true;
           error := None;
           sent := sent s ++ [(c, input s)];
           pending := S (pending s) |}
  | None => s
  end.

(** [handleSendMessage] from the point where the request settles:
    [result.text] on success, the thrown value on failure; the [finally]
    block runs in both cases. *)
Definition handleSendMessage_settles (r : Live.Settled string)
    (s : ChatState) : ChatState :=
  match r with
  | Live.Fulfilled reply =>
      {| chat := chat s;
         messages := messages s ++ [{| role := model; text := reply |}];
         input := input s; isLoading := false; error := error s;
         sent := sent s; pending := Nat.pred (pending s) |}
  | Live.Rejected e =>
      {| chat := chat s;
         messages := messages s ++ [apology];
         input := input s; isLoading := false;
         error :=
           Some (if default false
                      (Live.includes "Requested entity was not found"
                         <$> Live.message e)
                 then api_key_error else response_error);
         sent := sent s; pending := Nat.pred (pending s) |}
  end.

Inductive ChatEvent :=
  | NewChat (created : Live.Settled nat)        (* also the mount effect *)
  | Types (value : string)
  | Submits
  | Settles (r : Live.Settled string).

(** A request can settle only while one is pending. *)
Definition chat_step (ev : ChatEvent) (s : ChatState) : ChatState :=
  match ev with
  | NewChat created => initializeChat created s
  | Types value => setInput value s
  | Submits => handleSendMessage_begin s
  | Settles r =>
      match pending s with
      | O => s
      | S _ => handleSendMessage_settles r s
      end
  end.

Definition chat_run (evs : list ChatEvent) (s : ChatState) : ChatState :=
  fold_left (λ s ev, chat_step ev s) evs s.

End Trim.

End Chat.

(** ** [VideoGenerator]: the rotating loading message *)

Module Video.

Definition loadingMessages : list string :=
  ["Warming up the digital director...";
   "Choreographing pixels into motion...";
   "Rendering the first few frames...";
   "Applying cinematic magic...";
   "This can take a few minutes, hang tight!";
   "Finalizing the video masterpiece..."].

(** [array.indexOf(x)]: the first index holding [x], or -1. *)
Fixpoint indexOf (l : list string) (x : string) : Z :=
  match l with
  | [] => -1
  | y :: rest =>
      if String.eqb y x then 0
      else let i := indexOf rest x in if i <? 0 then -1 else i + 1
  end.

(** [array[i]] for an integer [i]: [undefined] outside the array. *)
Definition at_index (l : list string) (i : Z) : option string :=
  if i <? 0 then None else l !! Z.to_nat i.

(** The updater run by the interval every five seconds:
    [loadingMessages[(indexOf(prev) + 1) % loadingMessages.length]], with
    [%] the remainder of JavaScript. [None] stands for [undefined]. *)
Definition next_message (prev : string) : option string :=
  let currentIndex := indexOf loadingMessages prev in
  at_index loadingMessages
    (Z.rem (currentIndex + 1) (Z.of_nat (length loadingMessages))).

(** [k] runs of the updater. *)
Fixpoint ticks (k : nat) (prev : string) : option string :=
  match k with
  | O => Some prev
  | S k' => next_message prev ≫= ticks k'
  end.

End Video.

(** * Properties *)


(** ** The encoder *)

Module EncoderSpec.
Import Encoder.

Lemma wrap_closed_form (t : Z) :
  (if 32768 <=? t mod 65536 then t mod 65536 - 65536 else t mod 65536)
  = (t + 32768) mod 65536 - 32768.
Proof.
  destruct (Z.leb_spec 32768 (t mod 65536)) as [Hge | Hlt].
  - assert (H : (t + 32768) mod 65536 = t mod 65536 - 32768); [| lia].
    symmetry. apply (Z.mod_unique _ _ (t / 65536 + 1)).
    + pose proof (Z.mod_pos_bound t 65536). lia.
    + pose proof (Z.div_mod t 65536). lia.
  - assert (H : (t + 32768) mod 65536 = t mod 65536 + 32768); [| lia].
    symmetry. apply (Z.mod_unique _ _ (t / 65536)).
    + pose proof (Z.mod_pos_bound t 65536). lia.
    + pose proof (Z.div_mod t 65536). lia.
Qed.

Lemma sample_to_int16_finite (q : Q) :
  sample_to_int16 (Finite q)
  = (truncate (q * 32768) + 32768) mod 65536 - 32768.
Proof. unfold sample_to_int16. cbn [times32768 ToInt16]. apply wrap_closed_form. Qed.

Lemma encode_loop_spec (inputData : list Number) :
  ∀ (k i : nat) (int16 : list Z),
    length int16 = length inputData →
    (i + k)%nat = length inputData →
    encode_loop inputData int16 i k
    = take i int16 ++ map sample_to_int16 (drop i inputData).
Proof.
  induction k as [| k IH]; intros i int16 Hlen Hik; cbn [encode_loop].
  - rewrite take_ge by lia. rewrite drop_ge by lia. by rewrite app_nil_r.
  - destruct (lookup_lt_is_Some_2 inputData i) as [x Hx]; [lia |].
    rewrite IH by (rewrite ?length_insert; lia).
    rewrite (take_S_r _ _ (sample_to_int16 x)).
    + rewrite take_insert_ge by lia.
      rewrite (drop_S _ _ _ Hx). cbn [map]. by rewrite <- app_assoc.
    + unfold read_sample. rewrite Hx. cbn [default].
      apply list_lookup_insert_eq. lia.
Qed.

Lemma to_int16_array_map (inputData : list Number) :
  to_int16_array inputData = map sample_to_int16 inputData.
Proof.
  unfold to_int16_array.
  rewrite encode_loop_spec by (rewrite ?length_replicate; lia).
  reflexivity.
Qed.

(** C9. Each sample becomes [truncate (x * 32768)] wrapped into the signed
    16-bit range, with no clamping: -1.0 gives -32768, 1.0 gives the
    wrap-around of 32768 (again -32768), every finite input lands in
    [-32768, 32767] congruent to the truncated product modulo 2^16, values
    beyond the range wrap (1.5 and 2.0 shown), and the non-finite inputs,
    which have no integer part, give 0. The encoder is a total function of
    its input alone: the output has one integer per input sample, the one
    that sample determines. *)
Theorem encoder_wraps_without_clamping :
  sample_to_int16 (Finite (-1)) = -32768
  ∧ sample_to_int16 (Finite 1) = -32768
  ∧ (32768 + 32768) mod 65536 - 32768 = -32768
  ∧ (∀ q : Q,
       sample_to_int16 (Finite q)
       = (truncate (q * 32768) + 32768) mod 65536 - 32768
       ∧ -32768 <= sample_to_int16 (Finite q) <= 32767
       ∧ sample_to_int16 (Finite q) mod 65536
         = truncate (q * 32768) mod 65536)
  ∧ sample_to_int16 (Finite (3 # 2)) = -16384
  ∧ sample_to_int16 (Finite 2) = 0
  ∧ sample_to_int16 (Finite (-(3 # 2))) = 16384
  ∧ sample_to_int16 NaN = 0
  ∧ sample_to_int16 PosInfinity = 0
  ∧ sample_to_int16 NegInfinity = 0
  ∧ (∀ inputData : list Number,
       to_int16_array inputData = map sample_to_int16 inputData
       ∧ length (to_int16_array inputData) = length inputData).
Proof.
  repeat split; try reflexivity.
  - apply sample_to_int16_finite.
  - rewrite sample_to_int16_finite.
    pose proof (Z.mod_pos_bound (truncate (q * 32768) + 32768) 65536). lia.
  - rewrite sample_to_int16_finite.
    pose proof (Z.mod_pos_bound (truncate (q * 32768) + 32768) 65536). lia.
  - rewrite sample_to_int16_finite.
    set (t := truncate (q * 32768)).
    rewrite <- (Z.mod_add ((t + 32768) mod 65536 - 32768) 1 65536) by lia.
    replace ((t + 32768) mod 65536 - 32768 + 1 * 65536)
      with ((t + 32768) mod 65536 + 32768) by lia.
    rewrite Zplus_mod_idemp_l.
    replace (t + 32768 + 32768) with (t + 1 * 65536) by lia.
    apply Z.mod_add. lia.
  - apply to_int16_array_map.
  - rewrite to_int16_array_map. apply length_map.
Qed.

End EncoderSpec.

(** ** Running the callbacks *)

Module LiveFacts.
Import Encoder Live.

Lemma bind_returns {A B} (m : M A) (f : A → M B) (a : A) (w w' : World) :
  m w = Returns a w' → (m ≫= f) w = f a w'.
Proof. intros H. unfold mbind, M_bind. by rewrite H. Qed.

Lemma forEach_track_stop (l : list nat) :
  ∀ w, forEach l track_stop w
       = Returns tt
           (with_trace (λ t, t ++ map TrackStop l)
              (with_liveTracks (λ s, s ∖ list_to_set l) w)).
Proof.
  induction l as [| t l IH]; intros [st r lt no tr].
  - cbn. unfold with_trace, with_liveTracks. cbn. f_equal. f_equal.
    + by rewrite ?list_to_set_nil, difference_empty_L.
    + by rewrite app_nil_r.
  - cbn [forEach]. erewrite bind_returns; [| reflexivity].
    rewrite IH. unfold with_trace, with_liveTracks. cbn. f_equal. f_equal.
    + by rewrite ?list_to_set_cons, difference_difference_l_L.
    + by rewrite <- app_assoc.
Qed.

Ltac run_M :=
  repeat (cbn -[difference union list_to_set Qmax Qplus];
          unfold mbind, M_bind, mret, M_ret, get, modify, throw, emit, when,
            deref, discard, setIsSessionActive, setError, setTranscriptions,
            setCurrentTranscription, try_catch, new_AudioContext, new_object,
            with_trace, with_refs, with_state, with_liveTracks,
            with_nextObject, compose).

Lemma stopSession_returns (w : World) : stopSession w = Returns tt (stopped w).
Proof.
  destruct w as [st [p ic oc ms sp src c a] lt no tr].
  unfold stopSession, stopped, teardown_plan, released.
  destruct p, sp, src, ms as [[sid tracks] |]; run_M;
    try (rewrite forEach_track_stop; run_M);
    do 2 f_equal; rewrite ?list_to_set_nil, ?difference_empty_L;
    repeat rewrite <- app_assoc; reflexivity.
Qed.


(** ** [stopSession] *)



(** C10. [stopSession] writes null to the session-promise, script-processor,
    media-source and media-stream cells and [false] to the active flag, and
    nothing else: both audio-context cells, the PlaybackCursor, the set of
    scheduled sources, the transcript history, the current turn and the
    error message keep their values, no handle is allocated, and every
    effect it has is a session close, a node disconnect, a track stop, a
    cell being cleared, or the flag write (no source is started or stopped,
    no context is created or closed). *)
Theorem stop_frame (w : World) :
  ∃ w1 : World,
    stopSession w = Returns tt w1
    ∧ sessionPromiseRef (refs w1) = None
    ∧ scriptProcessorRef (refs w1) = None
    ∧ mediaStreamSourceRef (refs w1) = None
    ∧ mediaStreamRef (refs w1) = None
    ∧ isSessionActive (state w1) = false
    ∧ inputAudioContextRef (refs w1) = inputAudioContextRef (refs w)
    ∧ outputAudioContextRef (refs w1) = outputAudioContextRef (refs w)
    ∧ nextStartTimeRef (refs w1) = nextStartTimeRef (refs w)
    ∧ audioSourcesRef (refs w1) = audioSourcesRef (refs w)
    ∧ transcriptions (state w1) = transcriptions (state w)
    ∧ currentTranscription (state w1) = currentTranscription (state w)
    ∧ error (state w1) = error (state w)
    ∧ nextObject w1 = nextObject w
    ∧ ∃ new : list Effect,
        trace w1 = trace w ++ new
        ∧ Forall (λ e, is_teardown_effect e = true) new.
Proof.
  exists (stopped w).
  split; [apply stopSession_returns |].
  repeat (split; [reflexivity |]).
  exists (teardown_plan (refs w)). split; [reflexivity |].
  destruct w as [st [p ic oc ms sp src c a] lt no tr]. unfold teardown_plan.
  cbn. rewrite !Forall_app. repeat split.
  - destruct p; repeat constructor.
  - destruct sp; repeat constructor.
  - destruct src; repeat constructor.
  - destruct ms as [[sid tracks] |]; [| constructor].
    apply Forall_app. split; [| repeat constructor].
    apply Forall_forall. intros e He. apply list_elem_of_fmap in He.
    by destruct He as [t [-> _]].
  - repeat constructor.
Qed.

(** ** [onerror] *)

Lemma onerror_returns (msg : string) (w : World) :
  onerror msg w
  = Returns tt
      (stopped (with_state (put_error (Some (session_error_message msg))) w)).
Proof.
  unfold onerror. erewrite bind_returns; [| reflexivity].
  apply stopSession_returns.
Qed.


(** ** The transcript aggregator *)

Lemma turn_complete_appends_captured (cl : Closure) (now : Q)
    (message : LiveServerMessage) (decoded : Settled AudioBuffer) (w : World) :
  turnComplete message = true →
  let w' := world_of (onmessage cl now message decoded w) in
  transcriptions (state w')
  = transcriptions (state w) ++ [captured_currentTranscription cl]
  ∧ currentTranscription (state w') = empty_turn.
Proof.
  intros Htc.
  destruct w as [[act ts cur err] [p ic oc ms sp src c a] lt no tr].
  destruct message as [it ot tc inl]. cbn in Htc. subst tc.
  unfold onmessage, onmessage_begin, onmessage_resume.
  cbn [inputTranscription outputTranscription turnComplete inlineData].
  destruct it, ot, (truthy_string inl), oc, decoded; run_M; by split.
Qed.

(** C2, on the code. In a first session the three fragments accumulate
    into the current turn, but the turn-complete marker appends the turn
    the callbacks closed over when [startSession] ran (empty here), not the
    accumulated one: the history holds one record with both texts empty,
    where the claim has "hello world" and "hi". The current turn is reset
    to empty. *)
Theorem turn_complete_records_stale_turn :
  currentTranscription
    (state (world_of (Scenarios.three_fragments mount)))
  = {| user := "hello world"; model := "hi" |}
  ∧ transcriptions (state (world_of (Scenarios.one_turn mount)))
    = [{| user := ""; model := "" |}]
  ∧ transcriptions (state (world_of (Scenarios.one_turn mount)))
    ≠ [{| user := "hello world"; model := "hi" |}]
  ∧ currentTranscription (state (world_of (Scenarios.one_turn mount)))
    = empty_turn.
Proof.
  repeat apply conj; try (vm_compute; reflexivity).
  intros H. vm_compute in H. discriminate H.
Qed.

(** ** Failures during [startSession] *)

Lemma start_resume_connect_throws (stream : MediaStream) (e : Error)
    (w : World) :
  let w' := world_of (startSession_resume (Fulfilled stream) (Rejected e) w) in
  mediaStreamRef (refs w') = Some stream
  ∧ liveTracks w' = liveTracks w ∪ list_to_set (getTracks stream)
  ∧ trace w' = trace w ++ [SetIsSessionActive false]
  ∧ isSessionActive (state w') = false.
Proof.
  destruct w as [[act ts cur err] [p ic oc ms sp src c a] lt no tr].
  unfold startSession_resume, getUserMedia, connect, startSession_catch.
  destruct (default false
              (includes "Requested entity was not found" <$> message e)) eqn:E;
    run_M; rewrite E; run_M; repeat split.
Qed.

(** C5, on the code. When the microphone is granted and building the
    client then throws, the [catch] block sets the flag to false and an
    error message and keeps no session promise, but it does not release
    the stream: the stream cell still holds it, its track is still
    capturing, and no track stop was issued. (With the microphone refused
    nothing is held, and a failure reported through [onerror] is torn down
    by [stopSession].) *)
Theorem start_failure_keeps_microphone_live :
  let w := world_of (Scenarios.start_fails_after_microphone mount) in
  isSessionActive (state w) = false
  ∧ error (state w) = Some generic_start_message
  ∧ sessionPromiseRef (refs w) = None
  ∧ mediaStreamRef (refs w) = Some Scenarios.microphone
  ∧ elements (liveTracks w) = [7%nat]
  ∧ trace w = [SetIsSessionActive true; SetIsSessionActive false].
Proof. cbv zeta. repeat apply conj; vm_compute; reflexivity. Qed.

Lemma start_failure_at_microphone_holds_nothing :
  let w := world_of (Scenarios.start_fails_at_microphone mount) in
  isSessionActive (state w) = false
  ∧ error (state w) = Some generic_start_message
  ∧ sessionPromiseRef (refs w) = None
  ∧ mediaStreamRef (refs w) = None
  ∧ elements (liveTracks w) = [].
Proof. cbv zeta. repeat apply conj; vm_compute; reflexivity. Qed.

(** ** Sending after the session has ended *)

Lemma send_without_session_is_noop (inputData : list Number) (w : World) :
  sessionPromiseRef (refs w) = None →
  onaudioprocess inputData w = Returns tt w.
Proof.
  destruct w as [st [p ic oc ms sp src c a] lt no tr]. cbn. intros ->.
  reflexivity.
Qed.

Lemma send_after_stop_is_noop (inputData : list Number) (w : World) :
  onaudioprocess inputData (stopped w) = Returns tt (stopped w).
Proof. by apply send_without_session_is_noop. Qed.

Lemma send_after_onerror_is_noop (inputData : list Number) (msg : string)
    (w : World) :
  onaudioprocess inputData (world_of (onerror msg w))
  = Returns tt (world_of (onerror msg w)).
Proof. rewrite onerror_returns. by apply send_without_session_is_noop. Qed.

(** C7, on the code. After [stopSession] or [onerror] the session-promise
    cell is null and a send does nothing (the three lemmas above). When the
    remote end closes an open session, [onclose] only writes the flag: the
    cell still holds the promise, and the next [onaudioprocess] hands its
    chunk to the closed session. *)
Theorem send_after_remote_close_reaches_session :
  let w := world_of (Scenarios.remote_close mount) in
  isSessionActive (state w) = false
  ∧ sessionPromiseRef (refs w) = Some 1%nat
  ∧ onaudioprocess [Finite (1 # 2)] w
    = Returns tt
        (with_trace
           (λ t, t ++ [SendRealtimeInput 1
                         {| data := [0; 64]; mimeType := pcm_mimeType |}])
           w)
  ∧ onaudioprocess [Finite (1 # 2)] w ≠ Returns tt w.
Proof.
  cbv zeta. repeat apply conj; try (vm_compute; reflexivity).
  intros H. vm_compute in H. discriminate H.
Qed.

(** ** The PlaybackCursor *)

Lemma duration_nonneg (b : AudioBuffer) : (0 <= duration b)%Q.
Proof. unfold duration, Qle. cbn. lia. Qed.

Lemma startSession_catch_cursor (e : Error) (w : World) :
  cursor (world_of (startSession_catch e w)) = cursor w.
Proof.
  unfold startSession_catch.
  destruct (default false _); reflexivity.
Qed.

Lemma startSession_resume_cursor (media : Settled MediaStream)
    (session : Settled nat) (w : World) :
  cursor (world_of (startSession_resume media session w)) = cursor w.
Proof.
  unfold startSession_resume, try_catch, getUserMedia, connect.
  destruct media as [stream | e], session as [promise | e'];
    run_M; try reflexivity; by rewrite startSession_catch_cursor.
Qed.

Lemma onopen_cursor (w : World) : cursor (world_of (onopen w)) = cursor w.
Proof.
  destruct w as [st [p ic oc ms sp src c a] lt no tr].
  unfold onopen. destruct ms; reflexivity.
Qed.

Lemma onmessage_begin_cursor (cl : Closure) (now : Q)
    (message : LiveServerMessage) (w : World) :
  (cursor w <= cursor (world_of (onmessage_begin cl now message w)))%Q.
Proof.
  destruct w as [st [p ic oc ms sp src c a] lt no tr].
  destruct message as [it ot tc inl]. unfold onmessage_begin.
  cbn [inputTranscription outputTranscription turnComplete inlineData].
  destruct it, ot, tc, (truthy_string inl), oc; run_M;
    first [apply Qle_refl | apply Q.le_max_l].
Qed.

Lemma onmessage_resume_cursor (outputCtx : nat)
    (decoded : Settled AudioBuffer) (w : World) :
  (cursor w <= cursor (world_of (onmessage_resume outputCtx decoded w)))%Q.
Proof.
  destruct w as [st [p ic oc ms sp src c a] lt no tr].
  destruct decoded as [b | e]; unfold onmessage_resume, cursor; run_M.
  - pose proof (duration_nonneg b). lra.
  - apply Qle_refl.
Qed.

Lemma step_cursor (ev : Event) (w : World) :
  (cursor w <= cursor (step ev w))%Q.
Proof.
  destruct ev as [| media session | | | cl now msg | outputCtx decoded | emsg | | inputData | source]; cbn [step].
  - apply Qle_refl.
  - rewrite startSession_resume_cursor. apply Qle_refl.
  - rewrite stopSession_returns. apply Qle_refl.
  - rewrite onopen_cursor. apply Qle_refl.
  - apply onmessage_begin_cursor.
  - apply onmessage_resume_cursor.
  - rewrite onerror_returns. apply Qle_refl.
  - apply Qle_refl.
  - destruct w as [st [[p |] ic oc ms sp src c a] lt no tr]; apply Qle_refl.
  - apply Qle_refl.
Qed.

Lemma run_cursor (evs : list Event) :
  ∀ w : World, (cursor w <= cursor (run evs w))%Q.
Proof.
  induction evs as [| ev evs IH]; intros w; cbn [run fold_left].
  - apply Qle_refl.
  - eapply Qle_trans; [apply (step_cursor ev) | apply IH].
Qed.



(** ** The inbound scheduler *)


Lemma scheduled_app (t1 t2 : list Effect) :
  scheduled (t1 ++ t2) = scheduled t1 ++ scheduled t2.
Proof. apply omap_app. Qed.






Lemma no_underrun_when_chunks_arrive_early (chunks : list Chunk) :
  ∀ cur : Q,
    Forall (λ c, (arrival c <= cur)%Q) chunks →
    (underrun cur chunks == 0)%Q.
Proof.
  induction chunks as [| c rest IH]; intros cur Hearly; cbn.
  - lra.
  - apply Forall_cons in Hearly as [Hc Hrest].
    pose proof (duration_nonneg (chunk_buffer c)) as Hd.
    pose proof (Q.le_max_l cur (arrival c)) as Hmax.
    rewrite IH.
    + destruct (Q.max_spec 0 (arrival c - cur)) as [[Hlt ->] | [Hle ->]]; lra.
    + eapply Forall_impl; [exact Hrest |]. cbn. intros c' Hc'. lra.
Qed.




(** *** Scheduling under any interleaving of the event loop *)

Lemma scheduled_teardown_plan (r : Refs) : scheduled (teardown_plan r) = [].
Proof.
  destruct r as [p ic oc ms sp src c a]. unfold teardown_plan. cbn.
  rewrite !scheduled_app.
  destruct p, sp, src, ms as [[sid tracks] |]; cbn;
    try reflexivity; rewrite scheduled_app, app_nil_r;
    induction tracks; cbn; auto.
Qed.

Lemma startSession_resume_trace (media : Settled MediaStream)
    (session : Settled nat) (w : World) :
  ∃ extra : list Effect,
    trace (world_of (startSession_resume media session w)) = trace w ++ extra
    ∧ scheduled extra = [].
Proof.
  unfold startSession_resume, try_catch, getUserMedia, connect,
    startSession_catch.
  destruct media as [stream | e], session as [promise | e']; run_M;
    try (exists []; by rewrite app_nil_r);
    match goal with
    | |- context [if ?b then _ else _] => destruct b
    end; run_M; by exists [SetIsSessionActive false].
Qed.

Lemma step_schedules (ev : Event) (w : World) :
  ∃ extra : list Effect,
    trace (step ev w) = trace w ++ extra
    ∧ (scheduled extra = []
       ∨ ∃ d : Q, (0 <= d)%Q
                  ∧ scheduled extra = [(cursor w, d)]
                  ∧ cursor (step ev w) = (cursor w + d)%Q).
Proof.
  destruct ev as [| media session | | | cl now msg | outputCtx decoded | emsg | | inputData | source]; cbn [step].
  - exists [SetIsSessionActive true]. split; [reflexivity | by left].
  - destruct (startSession_resume_trace media session w) as (extra & H1 & H2).
    exists extra. split; [exact H1 | by left].
  - rewrite stopSession_returns. exists (teardown_plan (refs w)).
    split; [reflexivity | left; apply scheduled_teardown_plan].
  - destruct w as [st [p ic oc [ms |] sp src c a] lt no tr]; unfold onopen; run_M.
    + eexists. split; [by rewrite <- !app_assoc | by left].
    + exists []. split; [by rewrite app_nil_r | by left].
  - exists []. split; [| by left]. rewrite app_nil_r.
    destruct w as [st [p ic oc ms sp src c a] lt no tr].
    destruct msg as [it ot tc inl]. unfold onmessage_begin.
    cbn [inputTranscription outputTranscription turnComplete inlineData].
    destruct it, ot, tc, (truthy_string inl), oc; reflexivity.
  - destruct w as [st [p ic oc ms sp src c a] lt no tr].
    destruct decoded as [b | e]; unfold onmessage_resume; run_M.
    + eexists. split; [by rewrite <- !app_assoc |].
      right. exists (duration b). split; [apply duration_nonneg | by split].
    + exists []. split; [by rewrite app_nil_r | by left].
  - rewrite onerror_returns. exists (teardown_plan (refs w)).
    split; [reflexivity | left; apply scheduled_teardown_plan].
  - exists [SetIsSessionActive false]. split; [reflexivity | by left].
  - destruct w as [st [[p |] ic oc ms sp src c a] lt no tr]; run_M.
    + eexists. split; [reflexivity | by left].
    + exists []. split; [by rewrite app_nil_r | by left].
  - exists []. split; [by rewrite app_nil_r | by left].
Qed.

Lemma no_overlap_cons (s d : Q) (l : list (Q * Q)) :
  no_overlap l →
  Forall (λ p, (s + d <= p.1)%Q) l →
  no_overlap ((s, d) :: l).
Proof.
  intros Hl Hall [| i] s1 d1 s2 d2 H1 H2.
  - cbn in H1. injection H1 as <- <-.
    destruct l as [| [s' d'] l']; [discriminate H2 |].
    cbn in H2. injection H2 as <- <-.
    apply Forall_cons in Hall as [Hhd _]. exact Hhd.
  - exact (Hl i s1 d1 s2 d2 H1 H2).
Qed.

(** The no-overlap half of C1 does not depend on the handlers running one
    after the other: over any sequence of events, with message handlers
    suspended at their [await] and resumed in any order, the sources that
    get scheduled never overlap, start no earlier than the cursor stood at
    the beginning, and end no later than the cursor stands at the end. *)
Lemma scheduling_never_overlaps (evs : list Event) :
  ∀ w : World,
    ∃ extra : list Effect,
      trace (run evs w) = trace w ++ extra
      ∧ no_overlap (scheduled extra)
      ∧ Forall (λ p, (cursor w <= p.1 ∧ p.1 + p.2 <= cursor (run evs w))%Q)
          (scheduled extra).
Proof.
  induction evs as [| ev evs IH]; intros w.
  - exists []. cbn. rewrite app_nil_r. repeat split.
    + intros i s1 d1 s2 d2 H. discriminate H.
    + constructor.
  - destruct (step_schedules ev w) as (e1 & Htr1 & Hsched).
    destruct (IH (step ev w)) as (e2 & Htr2 & Hno & Hall).
    pose proof (step_cursor ev w) as Hmono.
    exists (e1 ++ e2). change (run (ev :: evs) w) with (run evs (step ev w)).
    split; [by rewrite Htr2, Htr1, app_assoc |].
    rewrite scheduled_app.
    destruct Hsched as [-> | (d & Hd & -> & Hcur)]; cbn [app].
    + split; [exact Hno |].
      eapply Forall_impl; [exact Hall |]. cbn. intros [s' d'] [H1 H2]. cbn in *.
      split; [lra | exact H2].
    + split.
      * apply no_overlap_cons; [exact Hno |].
        eapply Forall_impl; [exact Hall |]. cbn. intros [s' d'] [H1 _].
        cbn in *. rewrite Hcur in H1. exact H1.
      * constructor.
        -- cbn. split; [apply Qle_refl |].
           pose proof (run_cursor evs (step ev w)) as Hrun.
           rewrite Hcur in Hrun. exact Hrun.
        -- eapply Forall_impl; [exact Hall |]. cbn.
           intros [s' d'] [H1 H2]. cbn in *. split; [lra | exact H2].
Qed.

(** *** No send until a start stores a new session promise *)

Lemma step_keeps_no_session (ev : Event) (w : World) :
  is_start_resume ev = false →
  sessionPromiseRef (refs w) = None →
  sessionPromiseRef (refs (step ev w)) = None.
Proof.
  destruct w as [st [p ic oc ms sp src c a] lt no tr]. cbn [refs sessionPromiseRef].
  intros Hev ->. destruct ev as [| media session | | | cl now msg | outputCtx decoded | emsg | | inputData | source];
    try discriminate Hev; cbn [step].
  - reflexivity.
  - by rewrite stopSession_returns.
  - unfold onopen. destruct ms; reflexivity.
  - destruct msg as [it ot tc inl]. unfold onmessage_begin.
    cbn [inputTranscription outputTranscription turnComplete inlineData].
    destruct it, ot, tc, (truthy_string inl), oc; reflexivity.
  - destruct decoded; reflexivity.
  - by rewrite onerror_returns.
  - reflexivity.
  - reflexivity.
  - reflexivity.
Qed.

Lemma send_stays_noop_until_start_resumes (evs : list Event)
    (inputData : list Number) :
  ∀ w : World,
    forallb (λ ev, negb (is_start_resume ev)) evs = true →
    sessionPromiseRef (refs w) = None →
    onaudioprocess inputData (run evs w) = Returns tt (run evs w).
Proof.
  induction evs as [| ev evs IH]; intros w Hevs Hnone.
  - by apply send_without_session_is_noop.
  - cbn in Hevs. apply andb_prop in Hevs as [Hev Hrest].
    change (run (ev :: evs) w) with (run evs (step ev w)).
    apply IH; [exact Hrest |].
    apply step_keeps_no_session; [| exact Hnone].
    by destruct (is_start_resume ev).
Qed.

(** *** What [stopSession] cannot undo *)

(** [stopSession] acts on what the refs hold when it runs. A [startSession]
    that is still awaiting the microphone is not cancelled by it: when the
    permission is granted afterwards the stream and the session promise are
    stored, with the flag left at false. *)
Lemma pending_start_resumes_after_stop :
  let w := run Scenarios.stop_during_start mount in
  isSessionActive (state w) = false
  ∧ mediaStreamRef (refs w) = Some Scenarios.microphone
  ∧ sessionPromiseRef (refs w) = Some 1%nat
  ∧ elements (liveTracks w) = [7%nat].
Proof. cbv zeta. repeat apply conj; vm_compute; reflexivity. Qed.

End LiveFacts.

(** ** More on the encoder *)

Module EncoderMore.
Import Encoder Pcm.

Lemma sample_to_int16_range (x : Number) :
  -32768 <= sample_to_int16 x <= 32767.
Proof.
  destruct x as [q | | |]; try (cbn; lia).
  rewrite EncoderSpec.sample_to_int16_finite.
  pose proof (Z.mod_pos_bound (truncate (q * 32768) + 32768) 65536). lia.
Qed.

Lemma int16_bytes_round_trip (v : Z) :
  -32768 <= v <= 32767 →
  ∃ lo hi : Z,
    int16_bytes v = [lo; hi]
    ∧ 0 <= lo < 256 ∧ 0 <= hi < 256
    ∧ int16_of_bytes lo hi = v.
Proof.
  intros Hv. unfold int16_bytes, int16_of_bytes. cbv zeta.
  eexists _, _. split; [reflexivity |].
  assert (Hu : 0 <= v mod 65536 < 65536) by (apply Z.mod_pos_bound; lia).
  assert (Hv' : v mod 65536 = if v <? 0 then v + 65536 else v).
  { destruct (Z.ltb_spec v 0).
    - symmetry. apply (Z.mod_unique _ _ (-1)); lia.
    - apply Z.mod_small. lia. }
  set (u := v mod 65536) in *.
  assert (Hlo : 0 <= u mod 256 < 256) by (apply Z.mod_pos_bound; lia).
  assert (Hhi : 0 <= u / 256 < 256).
  { split; [apply Z.div_pos; lia | apply Z.div_lt_upper_bound; lia]. }
  assert (Hsum : u mod 256 + 256 * (u / 256) = u).
  { pose proof (Z.div_mod u 256). lia. }
  repeat split; try lia.
  rewrite Hsum.
  destruct (Z.ltb_spec v 0), (Z.leb_spec 32768 u); lia.
Qed.

Lemma Int16Array_of_bytes (int16 : list Z) :
  Forall (λ v, -32768 <= v <= 32767) int16 →
  Int16Array_of (Uint8Array_of int16) = int16
  ∧ length (Uint8Array_of int16) = (2 * length int16)%nat
  ∧ Forall (λ b, 0 <= b < 256) (Uint8Array_of int16).
Proof.
  induction 1 as [| v l Hv _ IH]; [by repeat split |].
  destruct IH as (IH1 & IH2 & IH3).
  destruct (int16_bytes_round_trip v Hv) as (lo & hi & Hb & Hlo & Hhi & Hback).
  unfold Uint8Array_of in *. cbn [map concat]. rewrite Hb. cbn [app Int16Array_of].
  rewrite Hback, IH1. cbn [length]. rewrite IH2.
  split; [reflexivity |]. split; [lia |].
  apply Forall_cons. split; [exact Hlo |].
  apply Forall_cons. split; [exact Hhi | exact IH3].
Qed.

(** X1. The byte view of the encoded block loses nothing: whatever samples
    the microphone delivers (out-of-range and non-finite ones included),
    the bytes handed to the base64 helper are two per sample, each in
    0..255, and reading them back as little-endian signed 16-bit integers
    gives exactly the integers the loop stored. *)
Theorem pcm_bytes_round_trip (inputData : list Number) :
  Int16Array_of (Uint8Array_of (to_int16_array inputData))
  = to_int16_array inputData
  ∧ length (Uint8Array_of (to_int16_array inputData))
    = (2 * length inputData)%nat
  ∧ Forall (λ b, 0 <= b < 256) (Uint8Array_of (to_int16_array inputData)).
Proof.
  assert (H : Forall (λ v, -32768 <= v <= 32767) (to_int16_array inputData)).
  { rewrite EncoderSpec.to_int16_array_map. apply Forall_forall.
    intros v Hv. apply list_elem_of_fmap in Hv as (x & -> & _).
    apply sample_to_int16_range. }
  destruct (Int16Array_of_bytes _ H) as (H1 & H2 & H3).
  repeat split; [exact H1 | | exact H3].
  rewrite H2, EncoderSpec.to_int16_array_map, length_map. reflexivity.
Qed.

Lemma truncate_floor_ceiling (q : Q) :
  truncate q = if 0 <=? Qnum q then Qfloor q else Qceiling q.
Proof.
  destruct q as [n d]. unfold truncate, Qceiling, Qfloor. cbn.
  destruct (Z.leb_spec 0 n).
  - apply Z.quot_div_nonneg; lia.
  - rewrite <- (Z.quot_div_nonneg (- n) (Zpos d)) by lia.
    rewrite Z.quot_opp_l by lia. lia.
Qed.

Lemma truncate_error (q : Q) :
  (- 1 < q - inject_Z (truncate q) < 1)%Q
  ∧ ((0 <= q)%Q → 0 <= truncate q ∧ (inject_Z (truncate q) <= q)%Q)
  ∧ ((q <= 0)%Q → truncate q <= 0 ∧ (q <= inject_Z (truncate q))%Q).
Proof.
  rewrite truncate_floor_ceiling.
  pose proof (Qfloor_le q) as Hf1. pose proof (Qlt_floor q) as Hf2.
  pose proof (Qle_ceiling q) as Hc1. pose proof (Qceiling_lt q) as Hc2.
  rewrite inject_Z_plus in Hf2.
  replace (Qceiling q - 1) with (Qceiling q + -1) in Hc2 by lia.
  rewrite inject_Z_plus in Hc2.
  change (inject_Z 1) with 1%Q in *. change (inject_Z (-1)) with (-1)%Q in *.
  assert (Hsign : (0 <= q)%Q ↔ 0 <= Qnum q).
  { unfold Qle. cbn. lia. }
  destruct (Z.leb_spec 0 (Qnum q)) as [Hn | Hn].
  - assert (H0 : (0 <= q)%Q) by (by apply Hsign).
    assert (Hz : 0 <= Qfloor q).
    { change 0 with (Qfloor 0). by apply Qfloor_resp_le. }
    split; [lra |]. split; [intros _; split; [lia | lra] |].
    intros Hq.
    assert (Hle : Qfloor q <= Qfloor 0) by (by apply Qfloor_resp_le).
    change (Qfloor 0) with 0 in Hle.
    replace (Qfloor q) with 0 by lia. split; [lia | exact Hq].
  - assert (H0 : (q < 0)%Q).
    { unfold Qlt. cbn. lia. }
    assert (Hz : Qceiling q <= 0).
    { change 0 with (Qceiling 0). apply Qceiling_resp_le. lra. }
    split; [lra |]. split; [intros Hq; lra |].
    intros _. split; [lia | lra].
Qed.

Lemma truncate_monotone (x y : Q) :
  (x <= y)%Q → truncate x <= truncate y.
Proof.
  intros Hxy. rewrite !truncate_floor_ceiling.
  assert (Hx : (0 <= x)%Q ↔ 0 <= Qnum x) by (unfold Qle; cbn; lia).
  assert (Hy : (0 <= y)%Q ↔ 0 <= Qnum y) by (unfold Qle; cbn; lia).
  destruct (Z.leb_spec 0 (Qnum x)) as [Hnx | Hnx],
           (Z.leb_spec 0 (Qnum y)) as [Hny | Hny].
  - by apply Qfloor_resp_le.
  - assert ((0 <= x)%Q) by (by apply Hx).
    assert (¬ (0 <= y)%Q) by (rewrite Hy; lia). lra.
  - assert (Hcx : Qceiling x <= Qceiling 0).
    { apply Qceiling_resp_le. apply Qnot_lt_le. intros H.
      assert ((0 <= x)%Q) by lra. apply Hx in H0. lia. }
    assert (Hfy : Qfloor 0 <= Qfloor y).
    { apply Qfloor_resp_le. by apply Hy. }
    change (Qceiling 0) with 0 in Hcx. change (Qfloor 0) with 0 in Hfy. lia.
  - by apply Qceiling_resp_le.
Qed.

Lemma truncate_in_range (q : Q) :
  (-1 <= q)%Q → (q < 1)%Q → -32768 <= truncate (q * 32768) <= 32767.
Proof.
  intros Hlo Hhi.
  destruct (truncate_error (q * 32768)) as (_ & Hpos & Hneg).
  destruct (Qlt_le_dec q 0) as [Hq | Hq].
  - destruct Hneg as [Hz Hle]; [lra |].
    assert (H : (inject_Z (-32768) <= inject_Z (truncate (q * 32768)))%Q).
    { change (inject_Z (-32768)) with (-32768)%Q. lra. }
    rewrite <- Zle_Qle in H. lia.
  - destruct Hpos as [Hz Hle]; [lra |].
    assert (H : (inject_Z (truncate (q * 32768)) < inject_Z 32768)%Q).
    { change (inject_Z 32768) with 32768%Q. lra. }
    rewrite <- Zlt_Qlt in H. lia.
Qed.

Lemma sample_to_int16_in_range (q : Q) :
  (-1 <= q)%Q → (q < 1)%Q →
  sample_to_int16 (Finite q) = truncate (q * 32768).
Proof.
  intros Hlo Hhi. pose proof (truncate_in_range q Hlo Hhi) as Hr.
  rewrite EncoderSpec.sample_to_int16_finite.
  rewrite Z.mod_small by lia. lia.
Qed.

(** X2. For a sample inside the nominal range, -1 <= x < 1, nothing wraps:
    the stored integer is the product truncated toward zero, it is less
    than one step away from the exact product, and it never exceeds the
    product in magnitude. *)
Theorem in_range_sample_is_truncated_product (q : Q) :
  (-1 <= q)%Q → (q < 1)%Q →
  sample_to_int16 (Finite q) = truncate (q * 32768)
  ∧ (-1 < q * 32768 - inject_Z (sample_to_int16 (Finite q)) < 1)%Q
  ∧ ((0 <= q)%Q →
     (0 <= inject_Z (sample_to_int16 (Finite q)) <= q * 32768)%Q)
  ∧ ((q <= 0)%Q →
     (q * 32768 <= inject_Z (sample_to_int16 (Finite q)) <= 0)%Q).
Proof.
  intros Hlo Hhi.
  rewrite (sample_to_int16_in_range q Hlo Hhi).
  destruct (truncate_error (q * 32768)) as (Herr & Hpos & Hneg).
  split; [reflexivity |]. split; [exact Herr |]. split.
  - intros Hq. destruct Hpos as [Hz Hle]; [lra |]. split; [| exact Hle].
    change 0%Q with (inject_Z 0). by rewrite <- Zle_Qle.
  - intros Hq. destruct Hneg as [Hz Hle]; [lra |]. split; [exact Hle |].
    change 0%Q with (inject_Z 0). by rewrite <- Zle_Qle.
Qed.

Lemma in_range_sample_is_truncated_product_witness :
  sample_to_int16 (Finite (-(1 # 3))) = truncate (-(1 # 3) * 32768)
  ∧ sample_to_int16 (Finite (-(1 # 3))) = -10922.
Proof.
  split; [| reflexivity].
  apply (in_range_sample_is_truncated_product (-(1 # 3))); lra.
Defined.

(** X3. Inside the nominal range the encoder preserves order: a larger
    sample never gets a smaller integer. (Beyond the range it does not:
    1.0 is stored below 0.5.) *)
Theorem encoder_is_monotone_in_range (q1 q2 : Q) :
  (-1 <= q1)%Q → (q1 <= q2)%Q → (q2 < 1)%Q →
  sample_to_int16 (Finite q1) <= sample_to_int16 (Finite q2).
Proof.
  intros H1 H12 H2.
  rewrite (sample_to_int16_in_range q1), (sample_to_int16_in_range q2) by lra.
  apply truncate_monotone. lra.
Qed.

Lemma encoder_is_monotone_in_range_witness :
  sample_to_int16 (Finite (-(1 # 2))) <= sample_to_int16 (Finite (1 # 4))
  ∧ ¬ sample_to_int16 (Finite (1 # 2)) <= sample_to_int16 (Finite 1).
Proof.
  split.
  - apply (encoder_is_monotone_in_range (-(1 # 2)) (1 # 4)); lra.
  - vm_compute. intros H. apply H. reflexivity.
Defined.

End EncoderMore.

(** ** More on the session callbacks *)

Module LiveMore.
Import Encoder Live Messages LiveFacts.

(** *** From Start to the first block of samples *)

(** X4. From any state whatever, pressing Start, being granted the
    microphone, getting a session promise and seeing the session open sets
    up one capture chain, and the first block of samples is sent to that
    promise: the flag is true, the error and the transcripts are cleared,
    the stream and the promise are held, two new contexts (16 kHz in,
    24 kHz out) and two new nodes are referenced, the granted tracks are
    live, and the trace grows by exactly the flag write, the two context
    creations, source into processor, processor into the input context's
    destination, and the send of the encoded block. *)
Theorem start_reaches_first_send (stream : MediaStream) (promise : nat)
    (inputData : list Number) (w : World) :
  let w' := run (session_to_first_block stream promise inputData) w in
  let n := nextObject w in
  isSessionActive (state w') = true
  ∧ error (state w') = None
  ∧ transcriptions (state w') = []
  ∧ currentTranscription (state w') = empty_turn
  ∧ mediaStreamRef (refs w') = Some stream
  ∧ sessionPromiseRef (refs w') = Some promise
  ∧ inputAudioContextRef (refs w') = Some n
  ∧ outputAudioContextRef (refs w') = Some (S n)
  ∧ mediaStreamSourceRef (refs w') = Some (S (S n))
  ∧ scriptProcessorRef (refs w') = Some (S (S (S n)))
  ∧ liveTracks w' = liveTracks w ∪ list_to_set (getTracks stream)
  ∧ trace w'
    = trace w ++
      [SetIsSessionActive true;
       NewAudioContext n 16000;
       NewAudioContext (S n) 24000;
       Connect (S (S n)) (ToNode (S (S (S n))));
       Connect (S (S (S n))) (ToDestination n);
       SendRealtimeInput promise
         {| data := Uint8Array_of (to_int16_array inputData);
            mimeType := pcm_mimeType |}].
Proof.
  destruct w as [[act ts cur err] [p ic oc ms sp src c a] lt no tr].
  unfold session_to_first_block, run. cbn [fold_left step].
  unfold startSession_begin, startSession_resume, getUserMedia, connect,
    onopen, onaudioprocess.
  run_M. repeat split. by rewrite <- !app_assoc.
Qed.

(** *** Stop while the session is opening *)

(** X5. When Stop is pressed after the microphone was granted and the
    client connected but before the session has opened, the promise gets
    its close request, every granted track is stopped, and the open signal
    that arrives afterwards sets nothing up: no context or node is created,
    the four session cells stay null, and a later block of samples is not
    sent. *)
Theorem stop_while_opening_sets_nothing_up (stream : MediaStream)
    (promise : nat) (w : World) :
  let held :=
    put_sessionPromiseRef (Some promise)
      (put_mediaStreamRef (Some stream) (refs w)) in
  let w' := run (stop_while_opening stream promise) w in
  isSessionActive (state w') = false
  ∧ refs w' = released (refs w)
  ∧ nextObject w' = nextObject w
  ∧ trace w' = trace w ++ SetIsSessionActive true :: teardown_plan held
  ∧ SessionClose promise ∈ teardown_plan held
  ∧ Forall (λ t, t ∉ liveTracks w') (getTracks stream)
  ∧ (∀ inputData : list Number, onaudioprocess inputData w' = Returns tt w').
Proof.
  destruct w as [[act ts cur err] [p ic oc ms sp src c a] lt no tr].
  cbv zeta. unfold stop_while_opening, run. cbn [fold_left step].
  unfold startSession_begin, startSession_resume, getUserMedia, connect.
  run_M. rewrite stopSession_returns. cbn [world_of].
  match goal with
  | |- context [onopen ?x] =>
      assert (Hopen : onopen x = Returns tt x) by reflexivity;
      rewrite Hopen; cbn [world_of]
  end.
  repeat apply conj; try (intros; apply send_after_stop_is_noop);
    try reflexivity.
  - unfold stopped. cbn. by rewrite <- app_assoc.
  - unfold teardown_plan. cbn. left.
  - apply Forall_forall. intros t Ht. cbn.
    rewrite elem_of_difference, elem_of_list_to_set. tauto.
Qed.

(** *** Transcript fragments *)

Lemma string_app_assoc (a b c : string) : (a +:+ b) +:+ c = a +:+ (b +:+ c).
Proof.
  induction a as [| x a IH]; [reflexivity |].
  change (String x ((a +:+ b) +:+ c) = String x (a +:+ (b +:+ c))).
  by f_equal.
Qed.

Lemma string_app_empty_r (a : string) : a +:+ "" = a.
Proof.
  induction a as [| x a IH]; [reflexivity |].
  change (String x (a +:+ "") = String x a). by f_equal.
Qed.

Lemma arrival_transcripts (cl : Closure) (now : Q) (m : LiveServerMessage)
    (w : World) :
  let w' := step (MessageArrives cl now m) w in
  transcriptions (state w')
  = transcriptions (state w)
    ++ (if turnComplete m then [captured_currentTranscription cl] else [])
  ∧ currentTranscription (state w')
    = if turnComplete m then empty_turn
      else {| user := user (currentTranscription (state w))
                      +:+ default "" (inputTranscription m);
              model := model (currentTranscription (state w))
                       +:+ default "" (outputTranscription m) |}.
Proof.
  destruct w as [[act ts [u mo] err] [p ic oc ms sp src c a] lt no tr].
  destruct m as [it ot tc inl]. cbn [step]. unfold onmessage_begin.
  cbn [inputTranscription outputTranscription turnComplete inlineData].
  destruct it, ot, tc, (truthy_string inl), oc; run_M;
    rewrite ?app_nil_r, ?string_app_empty_r; by split.
Qed.

(** X6. Between two turn-complete markers the current turn accumulates:
    after any sequence of messages none of which carries the marker, its
    user text is the text it had followed by every user fragment in
    arrival order, likewise its model text, whether or not the messages
    carry audio; the history is not touched. *)
Theorem fragments_accumulate_in_arrival_order (cl : Closure)
    (msgs : list (Q * LiveServerMessage)) (w : World) :
  Forall (λ m, turnComplete m.2 = false) msgs →
  let w' := run (arrivals cl msgs) w in
  currentTranscription (state w')
  = {| user := user (currentTranscription (state w)) +:+ user_fragments msgs;
       model := model (currentTranscription (state w))
                +:+ model_fragments msgs |}
  ∧ transcriptions (state w') = transcriptions (state w).
Proof.
  intros Hno. cbv zeta. revert w.
  induction Hno as [| [now m] msgs Hm _ IH]; intros w.
  - cbn. rewrite !string_app_empty_r. by destruct (currentTranscription _).
  - change (run (arrivals cl ((now, m) :: msgs)) w)
      with (run (arrivals cl msgs) (step (MessageArrives cl now m) w)).
    destruct (IH (step (MessageArrives cl now m) w)) as [-> ->].
    destruct (arrival_transcripts cl now m w) as [-> ->].
    cbn in Hm. rewrite Hm. cbn [user model user_fragments model_fragments snd].
    rewrite !string_app_assoc, app_nil_r. by split.
Qed.

Lemma fragments_accumulate_in_arrival_order_witness :
  currentTranscription
    (state (run (arrivals {| captured_currentTranscription := empty_turn |}
                   [(0%Q, Scenarios.fragment (Some "good ") None None);
                    (1%Q, Scenarios.fragment (Some "morning") (Some "hi") None)])
              mount))
  = {| user := "good morning"; model := "hi" |}.
Proof.
  apply (fragments_accumulate_in_arrival_order
           {| captured_currentTranscription := empty_turn |}
           [(0%Q, Scenarios.fragment (Some "good ") None None);
            (1%Q, Scenarios.fragment (Some "morning") (Some "hi") None)]
           mount).
  repeat constructor.
Defined.

(** X7. Messages only ever append to the history, one record for each
    turn-complete marker: after any sequence of messages the history is
    the old history followed by as many records as there were markers,
    each of them the turn the callbacks closed over. A message that
    carries the marker leaves the current turn empty, its own fragments
    included. *)
Theorem history_grows_by_one_record_per_marker (cl : Closure)
    (msgs : list (Q * LiveServerMessage)) (w : World) :
  transcriptions (state (run (arrivals cl msgs) w))
  = transcriptions (state w)
    ++ replicate (turn_completes msgs) (captured_currentTranscription cl)
  ∧ (∀ (now : Q) (user_text model_text audio : option string),
       currentTranscription
         (state (run (arrivals cl
                        (msgs ++ [(now,
                                   {| inputTranscription := user_text;
                                      outputTranscription := model_text;
                                      turnComplete := true;
                                      inlineData := audio |})]))
                   w))
       = empty_turn).
Proof.
  split.
  - revert w. induction msgs as [| [now m] msgs IH]; intros w.
    + cbn. by rewrite app_nil_r.
    + change (run (arrivals cl ((now, m) :: msgs)) w)
        with (run (arrivals cl msgs) (step (MessageArrives cl now m) w)).
      rewrite IH. destruct (arrival_transcripts cl now m w) as [-> _].
      cbn [turn_completes snd]. destruct (turnComplete m); cbn.
      * by rewrite <- app_assoc.
      * by rewrite app_nil_r.
  - intros now ut mt au. unfold arrivals, run.
    rewrite map_app, fold_left_app. cbn [map fold_left fst snd].
    match goal with
    | |- context [step ?ev ?x] =>
        destruct (arrival_transcripts cl now
                    {| inputTranscription := ut; outputTranscription := mt;
                       turnComplete := true; inlineData := au |} x)
          as [_ H]
    end.
    exact H.
Qed.

(** *** Messages that schedule nothing *)



(** X9. A payload that fails to decode is not fatal and schedules nothing:
    the handler throws the decoder's error after the transcript part of
    the message has been applied and the cursor has been raised to the
    clock; no source is created or started, the source set, the trace and
    the handles are unchanged, and the session cells are as before. *)
Theorem failed_decode_schedules_nothing (cl : Closure) (now : Q)
    (m : LiveServerMessage) (e : Error) (ctx : nat) (w : World) :
  outputAudioContextRef (refs w) = Some ctx →
  truthy_string (inlineData m) = true →
  ∃ w' : World,
    onmessage cl now m (Rejected e) w = Throws e w'
    ∧ trace w' = trace w
    ∧ nextObject w' = nextObject w
    ∧ liveTracks w' = liveTracks w
    ∧ refs w' = put_nextStartTimeRef (Qmax (cursor w) now) (refs w)
    ∧ state w' = state (step (MessageArrives cl now m) w).
Proof.
  destruct w as [[act ts [u mo] err] [p ic oc ms sp src c a] lt no tr].
  destruct m as [it ot tc inl]. cbn [step refs outputAudioContextRef inlineData].
  intros -> Hinl. unfold onmessage, onmessage_begin, onmessage_resume.
  cbn [inputTranscription outputTranscription turnComplete inlineData].
  rewrite Hinl.
  destruct it, ot, tc; run_M; eexists; repeat split.
Qed.

Lemma failed_decode_schedules_nothing_witness :
  ∃ w' : World,
    onmessage {| captured_currentTranscription := empty_turn |} 5
      (Scenarios.fragment (Some "kept") None (Some "UklG"))
      (Rejected {| message := Some "invalid payload" |})
      (world_of (Scenarios.open_session mount))
    = Throws {| message := Some "invalid payload" |} w'
    ∧ scheduled (trace w') = []
    ∧ user (currentTranscription (state w')) = "kept".
Proof.
  destruct (failed_decode_schedules_nothing
              {| captured_currentTranscription := empty_turn |} 5
              (Scenarios.fragment (Some "kept") None (Some "UklG"))
              {| message := Some "invalid payload" |} 1%nat
              (world_of (Scenarios.open_session mount)))
    as (w' & Hrun & Htr & _ & _ & _ & Hst).
  - vm_compute. reflexivity.
  - reflexivity.
  - exists w'. split; [exact Hrun |]. rewrite Htr, Hst.
    split; vm_compute; reflexivity.
Defined.

(** *** The set of scheduled sources *)

Lemma started_app (t1 t2 : list Effect) :
  started (t1 ++ t2) = started t1 ++ started t2.
Proof. apply omap_app. Qed.

(** What one event does to the source set, the handle counter and the
    trace: either the set does not grow and no handle is lost, or the
    event is a decode that settles well, and then the set gains exactly
    the handle that was next, which is started in the same event. *)
Lemma step_sources (ev : Event) (w : World) :
  ∃ extra : list Effect,
    trace (step ev w) = trace w ++ extra
    ∧ (nextObject w <= nextObject (step ev w))%nat
    ∧ (audioSourcesRef (refs (step ev w)) ⊆ audioSourcesRef (refs w)
       ∨ (audioSourcesRef (refs (step ev w))
          = audioSourcesRef (refs w) ∪ {[nextObject w]}
          ∧ nextObject (step ev w) = S (nextObject w)
          ∧ started extra = [nextObject w])).
Proof.
  assert (Hsame : ∀ (w' : World) (extra : list Effect),
            trace w' = trace w ++ extra →
            nextObject w' = nextObject w →
            audioSourcesRef (refs w') = audioSourcesRef (refs w) →
            ∃ extra : list Effect,
              trace w' = trace w ++ extra
              ∧ (nextObject w <= nextObject w')%nat
              ∧ (audioSourcesRef (refs w') ⊆ audioSourcesRef (refs w)
                 ∨ (audioSourcesRef (refs w')
                    = audioSourcesRef (refs w) ∪ {[nextObject w]}
                    ∧ nextObject w' = S (nextObject w)
                    ∧ started extra = [nextObject w]))).
  { intros w' extra Htr Hno Hset. exists extra. split; [exact Htr |].
    split; [lia |]. left. by rewrite Hset. }
  destruct ev as [| media session | | | cl now msg | outputCtx decoded
                  | emsg | | inputData | source]; cbn [step].
  - by apply (Hsame _ [SetIsSessionActive true]).
  - destruct (startSession_resume_trace media session w) as (extra & H1 & _).
    apply (Hsame _ extra H1); clear Hsame H1;
      destruct w as [st [p ic oc ms sp src c a] lt no tr];
      unfold startSession_resume, try_catch, getUserMedia, connect,
        startSession_catch;
      destruct media as [stream | e], session as [promise | e']; run_M;
      try reflexivity;
      match goal with
      | |- context [if ?b then _ else _] => destruct b
      end; reflexivity.
  - rewrite stopSession_returns.
    by apply (Hsame _ (teardown_plan (refs w))).
  - destruct w as [st [p ic oc [ms |] sp src c a] lt no tr].
    + eexists. unfold onopen. run_M.
      split; [by rewrite <- !app_assoc |]. split; [lia | by left].
    + by apply (Hsame _ []); rewrite ?app_nil_r.
  - apply (Hsame _ []); rewrite ?app_nil_r; clear Hsame;
      destruct w as [st [p ic oc ms sp src c a] lt no tr];
      destruct msg as [it ot tc inl]; unfold onmessage_begin;
      cbn [inputTranscription outputTranscription turnComplete inlineData];
      destruct it, ot, tc, (truthy_string inl), oc; reflexivity.
  - destruct decoded as [b | e].
    + clear Hsame. destruct w as [st [p ic oc ms sp src c a] lt no tr].
      unfold onmessage_resume. run_M.
      eexists. split; [by rewrite <- !app_assoc |]. split; [lia |].
      right. by repeat split.
    + by apply (Hsame _ []); rewrite ?app_nil_r.
  - rewrite onerror_returns.
    by apply (Hsame _ (teardown_plan (refs w))).
  - by apply (Hsame _ [SetIsSessionActive false]).
  - destruct w as [st [[p |] ic oc ms sp src c a] lt no tr].
    + by eapply Hsame.
    + by apply (Hsame _ []); rewrite ?app_nil_r.
  - clear Hsame. exists []. split; [by rewrite app_nil_r |]. split; [cbn; lia |].
    left. destruct w as [st [p ic oc ms sp src c a] lt no tr]. cbn.
    intros s Hs. apply elem_of_difference in Hs. tauto.
Qed.

Lemma sources_invariant (evs : list Event) :
  ∀ w : World,
    (∀ s, s ∈ audioSourcesRef (refs w) →
          (s < nextObject w)%nat ∧ s ∈ started (trace w)) →
    ∀ s, s ∈ audioSourcesRef (refs (run evs w)) →
         (s < nextObject (run evs w))%nat ∧ s ∈ started (trace (run evs w)).
Proof.
  induction evs as [| ev evs IH]; intros w Hw; [exact Hw |].
  change (run (ev :: evs) w) with (run evs (step ev w)).
  apply IH. intros s Hs.
  destruct (step_sources ev w) as (extra & Htr & Hno & Hcase).
  rewrite Htr, started_app, elem_of_app.
  destruct Hcase as [Hsub | (Hset & Hnext & Hst)].
  - destruct (Hw s (Hsub s Hs)) as [H1 H2]. split; [lia | by left].
  - rewrite Hset in Hs. apply elem_of_union in Hs as [Hs | Hs].
    + destruct (Hw s Hs) as [H1 H2]. split; [lia | by left].
    + apply elem_of_singleton in Hs as ->. split; [lia |].
      right. rewrite Hst. left.
Qed.

(** X10. In every state the component can reach after mounting, whatever
    the order of starts, stops, messages, decodes, errors, closes and
    ended sources, every source in the tracked set is one that was handed
    to [start], and the handle the next created object will get is not in
    the set. *)
Theorem tracked_sources_were_started (evs : list Event) :
  audioSourcesRef (refs (run evs mount))
  ⊆ list_to_set (started (trace (run evs mount)))
  ∧ nextObject (run evs mount) ∉ audioSourcesRef (refs (run evs mount)).
Proof.
  assert (H : ∀ s, s ∈ audioSourcesRef (refs (run evs mount)) →
                   (s < nextObject (run evs mount))%nat
                   ∧ s ∈ started (trace (run evs mount))).
  { apply sources_invariant. intros s Hs. cbn in Hs.
    by apply not_elem_of_empty in Hs. }
  split.
  - intros s Hs. apply elem_of_list_to_set. by apply H.
  - intros Hin. apply H in Hin as [Hlt _]. lia.
Qed.

(** X11. Scheduling a chunk and then hearing it end leaves the tracked set
    as it was: in every reachable state, a decode that settles well adds
    the new source to the set and that source's [ended] event removes it
    again, without disturbing the other sources. *)
Theorem ended_source_leaves_the_set (evs : list Event) (ctx : nat)
    (buffer : AudioBuffer) :
  let w := run evs mount in
  let w1 := step (DecodeSettles ctx (Fulfilled buffer)) w in
  audioSourcesRef (refs w1) = audioSourcesRef (refs w) ∪ {[nextObject w]}
  ∧ started (trace w1) = started (trace w) ++ [nextObject w]
  ∧ audioSourcesRef (refs (step (SourceEnds (nextObject w)) w1))
    = audioSourcesRef (refs w).
Proof.
  cbv zeta.
  assert (Hfresh : nextObject (run evs mount)
                   ∉ audioSourcesRef (refs (run evs mount))).
  { assert (H : ∀ s, s ∈ audioSourcesRef (refs (run evs mount)) →
                     (s < nextObject (run evs mount))%nat
                     ∧ s ∈ started (trace (run evs mount))).
    { apply sources_invariant. intros s Hs. cbn in Hs.
      by apply not_elem_of_empty in Hs. }
    intros Hin. apply H in Hin as [Hlt _]. lia. }
  revert Hfresh. generalize (run evs mount).
  intros [st [p ic oc ms sp src c a] lt no tr] Hfresh. cbn in Hfresh.
  cbn [step]. unfold onmessage_resume, on_source_ended. run_M.
  repeat split.
  - rewrite <- !app_assoc, started_app. reflexivity.
  - apply set_eq. intros s.
    rewrite elem_of_difference, elem_of_union, elem_of_singleton.
    split; [tauto |]. intros Hs. split; [by left |]. by intros ->.
Qed.

(** *** The message shown when starting fails *)

Lemma prefix_spec (s1 s2 : string) :
  String.prefix s1 s2 = true ↔ ∃ post : string, s2 = s1 +:+ post.
Proof.
  revert s1. induction s2 as [| b s2 IH]; intros [| a s1]; cbn.
  - split; [by exists "" | done].
  - split; [discriminate | intros [post H]; discriminate H].
  - split; [by exists (String b s2) | done].
  - destruct (Ascii.ascii_dec a b) as [-> | Hne].
    + rewrite IH. split; intros [post H]; exists post.
      * by rewrite H.
      * by injection H.
    + split; [discriminate |]. intros [post H]. injection H as H1 H2.
      by destruct Hne.
Qed.

Lemma includes_spec (needle haystack : string) :
  includes needle haystack = true
  ↔ ∃ pre post : string, haystack = pre +:+ needle +:+ post.
Proof.
  induction haystack as [| c h IH].
  - cbn [includes]. destruct (String.prefix needle "") eqn:E.
    + split; [intros _ | done]. apply prefix_spec in E as [post E].
      by exists "", post.
    + split; [discriminate |]. intros (pre & post & H).
      destruct pre as [| x pre]; [| discriminate H].
      assert (String.prefix needle "" = true) as E'
        by (apply prefix_spec; by exists post).
      congruence.
  - cbn [includes]. destruct (String.prefix needle (String c h)) eqn:E.
    + split; [intros _ | done]. apply prefix_spec in E as [post E].
      by exists "", post.
    + rewrite IH. split.
      * intros (pre & post & ->). by exists (String c pre), post.
      * intros (pre & post & H). destruct pre as [| x pre].
        -- assert (String.prefix needle (String c h) = true) as E'
             by (apply prefix_spec; by exists post).
           congruence.
        -- injection H as _ ->. by exists pre, post.
Qed.

(** X12. The [catch] block of [startSession], whichever call threw, puts
    the flag back to false and shows exactly one of two messages: the
    API-key message if and only if the thrown value has a message text
    that contains "Requested entity was not found" somewhere, and the
    generic microphone-or-session message otherwise (also when the thrown
    value has no message at all). It leaves the refs as they are. *)
Theorem start_failure_message (err : Error) (w : World) :
  ∃ w' : World,
    startSession_catch err w = Returns tt w'
    ∧ isSessionActive (state w') = false
    ∧ refs w' = refs w
    ∧ trace w' = trace w ++ [SetIsSessionActive false]
    ∧ (error (state w') = Some api_key_message
       ∨ error (state w') = Some generic_start_message)
    ∧ (error (state w') = Some api_key_message
       ↔ ∃ text pre post : string,
           message err = Some text
           ∧ text = pre +:+ "Requested entity was not found" +:+ post).
Proof.
  destruct w as [[act ts cur er] r lt no tr]. destruct err as [[text |]];
    unfold startSession_catch; cbn [message fmap option_fmap option_map default].
  - destruct (includes "Requested entity was not found" text) eqn:E; run_M;
      eexists; repeat split; eauto.
    + intros _. apply includes_spec in E as (pre & post & ->). eauto.
    + intros H. discriminate H.
    + intros (t & pre & post & [= <-] & Ht).
      assert (includes "Requested entity was not found" text = true)
        by (apply includes_spec; eauto).
      congruence.
  - run_M. eexists. repeat split; eauto.
    + intros H. discriminate H.
    + intros (t & pre & post & H & _). discriminate H.
Qed.

(** *** The microphone is released by the next Stop *)

Lemma step_stream (ev : Event) (w : World) :
  is_start_resume ev = false →
  (mediaStreamRef (refs (step ev w)) = mediaStreamRef (refs w)
   ∧ liveTracks (step ev w) = liveTracks w)
  ∨ (mediaStreamRef (refs (step ev w)) = None
     ∧ liveTracks (step ev w)
       = liveTracks w ∖ list_to_set (tracks_of (mediaStreamRef (refs w)))).
Proof.
  intros Hev.
  destruct ev as [| media session | | | cl now msg | outputCtx decoded
                  | emsg | | inputData | source];
    try discriminate Hev; cbn [step].
  - by left.
  - rewrite stopSession_returns. by right.
  - left. destruct w as [st [p ic oc [ms |] sp src c a] lt no tr]; by split.
  - left. destruct w as [st [p ic oc ms sp src c a] lt no tr].
    destruct msg as [it ot tc inl]. unfold onmessage_begin.
    cbn [inputTranscription outputTranscription turnComplete inlineData].
    destruct it, ot, tc, (truthy_string inl), oc; by split.
  - left. by destruct decoded.
  - rewrite onerror_returns. by right.
  - by left.
  - left. destruct w as [st [[p |] ic oc ms sp src c a] lt no tr]; by split.
  - by left.
Qed.

Lemma stream_held_or_released (stream : MediaStream) (evs : list Event) :
  ∀ w : World,
    Forall (λ ev, is_start_resume ev = false) evs →
    mediaStreamRef (refs w) = Some stream
    ∨ Forall (λ t, t ∉ liveTracks w) (getTracks stream) →
    mediaStreamRef (refs (run evs w)) = Some stream
    ∨ Forall (λ t, t ∉ liveTracks (run evs w)) (getTracks stream).
Proof.
  induction evs as [| ev evs IH]; intros w Hevs Hw; [exact Hw |].
  apply Forall_cons in Hevs as [Hev Hevs].
  change (run (ev :: evs) w) with (run evs (step ev w)).
  apply IH; [exact Hevs |].
  destruct (step_stream ev w Hev) as [[Hms Hlt] | [Hms Hlt]].
  - rewrite Hms, Hlt. exact Hw.
  - right. rewrite Hlt. destruct Hw as [-> | Hw].
    + apply Forall_forall. intros t Ht. cbn.
      rewrite elem_of_difference, elem_of_list_to_set. tauto.
    + eapply Forall_impl; [exact Hw |]. cbn. intros t Ht.
      rewrite elem_of_difference. tauto.
Qed.

(** X13. The microphone granted to a session is released by the next
    Stop, however the session went: from any state, once a start has
    stored the granted stream, and whatever follows (the session opening
    or failing to, messages, decodes, audio blocks, errors, a remote
    close, earlier stops) as long as no further start resumes in
    between, after Stop none of that stream's tracks is capturing and the
    stream cell is null. *)
Theorem stop_releases_the_granted_microphone (stream : MediaStream)
    (session : Settled nat) (evs : list Event) (w : World) :
  Forall (λ ev, is_start_resume ev = false) evs →
  let w' := run (session_then_stop stream session evs) w in
  Forall (λ t, t ∉ liveTracks w') (getTracks stream)
  ∧ mediaStreamRef (refs w') = None.
Proof.
  intros Hevs. cbv zeta. unfold session_then_stop.
  change (run (StartResumes (Fulfilled stream) session :: evs ++ [ClickStop]) w)
    with (run (evs ++ [ClickStop])
            (step (StartResumes (Fulfilled stream) session) w)).
  assert (Hlast : ∀ x : World,
            run (evs ++ [ClickStop]) x = stopped (run evs x)).
  { intros x. unfold run. rewrite fold_left_app. cbn [fold_left step].
    by rewrite stopSession_returns. }
  rewrite Hlast.
  split; [| reflexivity].
  assert (Hheld : mediaStreamRef
                    (refs (step (StartResumes (Fulfilled stream) session) w))
                  = Some stream).
  { destruct w as [st [p ic oc ms sp src c a] lt no tr]. cbn [step].
    unfold startSession_resume, try_catch, getUserMedia, connect,
      startSession_catch.
    destruct session as [promise | e]; run_M; [reflexivity |].
    match goal with
    | |- context [if ?b then _ else _] => destruct b
    end; reflexivity. }
  destruct (stream_held_or_released stream evs _ Hevs (or_introl Hheld))
    as [Hms | Hrel].
  - apply Forall_forall. intros t Ht. unfold stopped. cbn [liveTracks].
    rewrite Hms. cbn [tracks_of].
    rewrite elem_of_difference, elem_of_list_to_set. tauto.
  - eapply Forall_impl; [exact Hrel |]. cbn. intros t Ht.
    rewrite elem_of_difference. tauto.
Qed.

Lemma stop_releases_the_granted_microphone_witness :
  Forall (λ t, t ∉ liveTracks
                     (run (session_then_stop Scenarios.microphone
                             (Rejected Scenarios.missing_api_key)
                             [SessionCloses; AudioProcess [Finite 0]])
                        mount))
    (getTracks Scenarios.microphone).
Proof.
  apply (stop_releases_the_granted_microphone Scenarios.microphone
           (Rejected Scenarios.missing_api_key)
           [SessionCloses; AudioProcess [Finite 0]] mount).
  repeat constructor.
Defined.

End LiveMore.

(** ** The feature switch *)

Module AppFacts.
Import Live AppShell LiveFacts.

Lemma renderFeature_listed (name : string) :
  name ∈ features → is_Some (renderFeature name).
Proof.
  unfold features. rewrite !elem_of_cons, elem_of_nil.
  intros H. repeat (destruct H as [-> | H]; [by eexists |]). destruct H.
Qed.

Ltac case_name name :=
  repeat match goal with
  | |- context [String.eqb name ?s] =>
      let E := fresh "E" in
      destruct (String.eqb_spec name s) as [E | E]; [subst name |]
  | H : context [String.eqb name ?s] |- _ =>
      let E := fresh "E" in
      destruct (String.eqb_spec name s) as [E | E]; [subst name |]
  end.

Lemma renderFeature_unlisted (name : string) :
  is_Some (renderFeature name) → name ∈ features.
Proof.
  unfold renderFeature, features. intros [p Hp]. rewrite !elem_of_cons.
  case_name name; try tauto. discriminate Hp.
Qed.

Lemma shows_live_iff (name : string) :
  shows_live name = true ↔ name = "Live Conversation".
Proof.
  unfold shows_live, renderFeature. split.
  - case_name name; try discriminate; reflexivity.
  - by intros ->.
Qed.

(** X14. The navigation table and the switch agree: the table lists ten
    names without repetition, the panel shown first is the chatbot, a
    name is rendered as a panel exactly when the table lists it (every
    other string renders nothing), and no two names lead to the same
    panel. *)
Theorem navigation_table_matches_switch :
  NoDup features
  ∧ length features = 10%nat
  ∧ renderFeature (activeFeature App_initial) = Some Chatbot
  ∧ (∀ name : string, name ∈ features ↔ is_Some (renderFeature name))
  ∧ (∀ (n1 n2 : string) (p : Panel),
       renderFeature n1 = Some p → renderFeature n2 = Some p → n1 = n2).
Proof.
  split; [apply (bool_decide_unpack (NoDup features)); vm_compute; exact I |].
  split; [reflexivity |]. split; [reflexivity |]. split.
  - intros name. split; [apply renderFeature_listed | apply renderFeature_unlisted].
  - intros n1 n2 p H1 H2. unfold renderFeature in *.
    case_name n1; try discriminate H1; injection H1 as <-;
      case_name n2; try discriminate H2; reflexivity.
Qed.

Lemma leaving_live_panel_stops_session_aux (name : string) (a : AppState) :
  activeFeature a = "Live Conversation" →
  name ≠ "Live Conversation" →
  setActiveFeature name a = {| activeFeature := name; world := stopped (world a) |}
  ∧ setActiveFeature "Live Conversation" a = a.
Proof.
  intros Ha Hname. unfold setActiveFeature. rewrite Ha.
  destruct (String.eqb_spec name "Live Conversation") as [-> | _]; [done |].
  assert (Hs : shows_live name = false).
  { destruct (shows_live name) eqn:E; [| reflexivity].
    by apply shows_live_iff in E. }
  rewrite Hs. cbn. rewrite stopSession_returns. by split.
Qed.

(** X15. Navigating away from the live panel does exactly what Stop does:
    for every state of the panel, selecting any other feature leaves the
    world [stopSession] would leave (close requested, nodes disconnected,
    tracks stopped, cells cleared), while selecting the live panel when
    it is already shown changes nothing at all. *)
Theorem leaving_live_panel_stops_session (name : string) (a : AppState) :
  activeFeature a = "Live Conversation" →
  name ≠ "Live Conversation" →
  setActiveFeature name a = {| activeFeature := name; world := stopped (world a) |}
  ∧ stopSession (world a) = Returns tt (stopped (world a))
  ∧ setActiveFeature "Live Conversation" a = a.
Proof.
  intros Ha Hname.
  destruct (leaving_live_panel_stops_session_aux name a Ha Hname) as [H1 H2].
  split; [exact H1 |]. split; [apply stopSession_returns | exact H2].
Qed.

Lemma leaving_live_panel_stops_session_witness :
  world (setActiveFeature "Chatbot"
           {| activeFeature := "Live Conversation";
              world := world_of (Scenarios.open_session mount) |})
  = stopped (world_of (Scenarios.open_session mount)).
Proof.
  destruct (leaving_live_panel_stops_session "Chatbot"
              {| activeFeature := "Live Conversation";
                 world := world_of (Scenarios.open_session mount) |})
    as [H _]; [reflexivity | discriminate |].
  by rewrite H.
Defined.

(** X16. Going to another feature and coming back gives a new panel: the
    PlaybackCursor is 0 again, the history and the current turn are
    empty, every cell is null and the flag is false, whatever the panel
    held before; of the page, the trace has grown by the teardown of the
    old panel and no track of the stream it held is live. (Stop and Start
    inside one panel keep the cursor.) *)
Theorem returning_to_live_panel_is_a_fresh_mount (name : string)
    (a : AppState) :
  activeFeature a = "Live Conversation" →
  name ≠ "Live Conversation" →
  let a' := setActiveFeature "Live Conversation" (setActiveFeature name a) in
  activeFeature a' = "Live Conversation"
  ∧ state (world a') = state mount
  ∧ refs (world a') = refs mount
  ∧ cursor (world a') = 0%Q
  ∧ trace (world a') = trace (world a) ++ teardown_plan (refs (world a))
  ∧ nextObject (world a') = nextObject (world a)
  ∧ Forall (λ t, t ∉ liveTracks (world a'))
      (tracks_of (mediaStreamRef (refs (world a)))).
Proof.
  intros Ha Hname. cbv zeta.
  destruct (leaving_live_panel_stops_session_aux name a Ha Hname) as [-> _].
  unfold setActiveFeature. cbn [activeFeature world].
  destruct (String.eqb_spec "Live Conversation" name) as [<- | _]; [done |].
  assert (Hs : shows_live name = false).
  { destruct (shows_live name) eqn:E; [| reflexivity].
    by apply shows_live_iff in E. }
  rewrite Hs. cbn. repeat split.
  apply Forall_forall. intros t Ht.
  rewrite elem_of_difference, elem_of_list_to_set. tauto.
Qed.

Lemma returning_to_live_panel_is_a_fresh_mount_witness :
  cursor (world (setActiveFeature "Live Conversation"
                   (setActiveFeature "Chatbot"
                      {| activeFeature := "Live Conversation";
                         world := world_of (Scenarios.second_start mount) |})))
  = 0%Q
  ∧ ¬ (cursor (world_of (Scenarios.second_start mount)) == 0)%Q.
Proof.
  split.
  - apply (returning_to_live_panel_is_a_fresh_mount "Chatbot"
             {| activeFeature := "Live Conversation";
                world := world_of (Scenarios.second_start mount) |});
      [reflexivity | discriminate].
  - intros H. vm_compute in H. discriminate H.
Defined.

End AppFacts.

(** ** The chat panel *)

Module ChatFacts.
Import Chat.

Section Trim.

Variable blank : string → bool.


(** X18. An accepted submit makes one exchange: the request carries
    exactly the typed text to the current chat, the input box is emptied
    and the panel is busy until the request settles; when it settles,
    with a reply or with a failure, the list has grown by the user's
    message followed by exactly one model message (the reply, or the
    apology), the busy flag is off again, and an error is shown only on
    failure. *)
Theorem submit_and_reply_add_one_exchange (s : ChatState) (c : nat)
    (r : Live.Settled string) :
  chat s = Some c →
  blank (input s) = false →
  isLoading s = false →
  let s1 := chat_step blank Submits s in
  let s2 := chat_step blank (Settles r) s1 in
  isLoading s1 = true
  ∧ input s1 = ""
  ∧ sent s1 = sent s ++ [(c, input s)]
  ∧ messages s2
    = messages s ++ [{| role := user; text := input s |}; answer r]
  ∧ isLoading s2 = false
  ∧ input s2 = ""
  ∧ sent s2 = sent s1
  ∧ pending s2 = pending s
  ∧ chat s2 = Some c
  ∧ (error s2 = None
     ↔ ∃ reply : string, r = Live.Fulfilled reply).
Proof.
  intros Hc Hb Hl. cbn [chat_step]. unfold handleSendMessage_begin.
  rewrite Hc, Hb, Hl. cbn [orb pending].
  destruct r as [reply | e]; cbn; rewrite <- ?app_assoc; repeat split;
    try done; eauto.
  intros (reply & H). discriminate H.
Qed.

Lemma chat_invariant_step (ev : ChatEvent) (s : ChatState) :
  (pending s <= 1)%nat →
  (isLoading s = true ↔ pending s = 1%nat) →
  Forall (λ m, role m = user → blank (text m) = false) (messages s) →
  Forall (λ p, blank p.2 = false) (sent s) →
  (pending (chat_step blank ev s) <= 1)%nat
  ∧ (isLoading (chat_step blank ev s) = true
     ↔ pending (chat_step blank ev s) = 1%nat)
  ∧ Forall (λ m, role m = user → blank (text m) = false)
      (messages (chat_step blank ev s))
  ∧ Forall (λ p, blank p.2 = false) (sent (chat_step blank ev s)).
Proof.
  intros Hp Hl Hm Hs. destruct ev as [created | value | | r]; cbn [chat_step].
  - destruct created as [c | e]; cbn; repeat split; try tauto; try lia.
    repeat constructor. discriminate.
  - by cbn.
  - unfold handleSendMessage_begin.
    destruct (chat s) as [c |]; [| done].
    destruct (blank (input s)) eqn:Hb; [done |].
    destruct (isLoading s) eqn:Hload; cbn [orb]; [by rewrite Hload |]. cbn.
    assert (pending s = O).
    { destruct (pending s) as [| [| n]]; [done | | lia].
      destruct Hl as [_ Hl]. by specialize (Hl eq_refl). }
    repeat split; try lia.
    + apply Forall_app. split; [exact Hm |]. by repeat constructor.
    + apply Forall_app. split; [exact Hs |]. by repeat constructor.
  - destruct (pending s) as [| n] eqn:Hn; [by rewrite Hn |].
    assert (n = O) by lia. subst n.
    destruct r as [reply | e]; cbn; repeat split; try done; try lia;
      apply Forall_app; (split; [exact Hm |]); repeat constructor;
      discriminate.
Qed.

Lemma chat_invariant_run (evs : list ChatEvent) :
  ∀ s : ChatState,
    (pending s <= 1)%nat →
    (isLoading s = true ↔ pending s = 1%nat) →
    Forall (λ m, role m = user → blank (text m) = false) (messages s) →
    Forall (λ p, blank p.2 = false) (sent s) →
    (pending (chat_run blank evs s) <= 1)%nat
    ∧ (isLoading (chat_run blank evs s) = true
       ↔ pending (chat_run blank evs s) = 1%nat)
    ∧ Forall (λ m, role m = user → blank (text m) = false)
        (messages (chat_run blank evs s))
    ∧ Forall (λ p, blank p.2 = false) (sent (chat_run blank evs s)).
Proof.
  induction evs as [| ev evs IH]; intros s Hp Hl Hm Hs; [done |].
  change (chat_run blank (ev :: evs) s)
    with (chat_run blank evs (chat_step blank ev s)).
  destruct (chat_invariant_step ev s Hp Hl Hm Hs) as (H1 & H2 & H3 & H4).
  by apply IH.
Qed.

(** X19. Never more than one request is in flight: over every sequence of
    new chats, typing, submits and settled requests after the panel has
    mounted, at most one request is unsettled, and the busy flag is on
    exactly while one is. *)
Theorem at_most_one_request_in_flight (created : Live.Settled nat)
    (evs : list ChatEvent) :
  let s := chat_run blank evs (initializeChat created initial) in
  (pending s <= 1)%nat ∧ (isLoading s = true ↔ pending s = 1%nat).
Proof.
  cbv zeta.
  destruct (chat_invariant_run evs (initializeChat created initial))
    as (H1 & H2 & _); [| | | | by split];
    destruct created; cbn; try lia; try done;
    repeat constructor; discriminate.
Qed.

(** X20. A blank message is never shown as the user's and never sent: in
    every state reached after mounting, each user message in the list and
    each text handed to [sendMessage] is one the blank test did not find
    blank. *)
Theorem user_messages_are_never_blank (created : Live.Settled nat)
    (evs : list ChatEvent) :
  let s := chat_run blank evs (initializeChat created initial) in
  Forall (λ m, role m = user → blank (text m) = false) (messages s)
  ∧ Forall (λ p, blank p.2 = false) (sent s).
Proof.
  cbv zeta.
  destruct (chat_invariant_run evs (initializeChat created initial))
    as (_ & _ & H3 & H4); [| | | | by split];
    destruct created; cbn; try lia; try done;
    repeat constructor; discriminate.
Qed.

End Trim.


Lemma submit_and_reply_add_one_exchange_witness :
  messages
    (chat_run (λ s, String.eqb s "")
       [Types "hello"; Submits; Settles (Live.Fulfilled "hi there")]
       (initializeChat (Live.Fulfilled 0%nat) initial))
  = [greeting; {| role := user; text := "hello" |};
     {| role := model; text := "hi there" |}].
Proof.
  destruct (submit_and_reply_add_one_exchange (λ s, String.eqb s "")
              (setInput "hello" (initializeChat (Live.Fulfilled 0%nat) initial))
              0%nat (Live.Fulfilled "hi there"))
    as (_ & _ & _ & H & _); [reflexivity | reflexivity | reflexivity |].
  exact H.
Defined.

End ChatFacts.

(** ** The loading message of the video panel *)

Module VideoFacts.
Import Video.

Lemma indexOf_range (l : list string) (x : string) :
  -1 <= indexOf l x < Z.of_nat (length l)
  ∧ (indexOf l x = -1 ↔ x ∉ l).
Proof.
  induction l as [| y l [IH1 IH2]]; cbn [indexOf length].
  - split; [lia |]. split; [intros _; apply not_elem_of_nil | done].
  - rewrite not_elem_of_cons.
    destruct (String.eqb_spec y x) as [-> | Hne].
    + split; [lia |]. split; [discriminate | intros [H _]; by destruct H].
    + destruct (Z.ltb_spec (indexOf l x) 0) as [Hlt | Hge].
      * split; [lia |]. split; [| done]. intros _. split; [congruence |].
        apply IH2. lia.
      * split; [lia |]. split; [lia |]. intros [_ H]. apply IH2 in H. lia.
Qed.

(** X21. The rotating message is never undefined: whatever string the
    state holds, the updater yields one of the six messages, and a string
    that is not one of them (for which the index search gives -1) leads to
    the first message. *)
Theorem next_message_is_always_listed (prev : string) :
  ∃ m : string,
    next_message prev = Some m
    ∧ m ∈ loadingMessages
    ∧ (prev ∈ loadingMessages ∨ Some m = loadingMessages !! O).
Proof.
  unfold next_message.
  destruct (indexOf_range loadingMessages prev) as [Hr Hin].
  set (i := indexOf loadingMessages prev) in *.
  change (Z.of_nat (length loadingMessages)) with 6 in *.
  assert (Hcases : i = -1 ∨ i = 0 ∨ i = 1 ∨ i = 2 ∨ i = 3 ∨ i = 4 ∨ i = 5)
    by lia.
  assert (Hlisted : i ≠ -1 → prev ∈ loadingMessages).
  { intros Hi. destruct (decide (prev ∈ loadingMessages)) as [H | H];
      [exact H |]. apply Hin in H. contradiction. }
  destruct Hcases as [-> | [-> | [-> | [-> | [-> | [-> | ->]]]]]];
    (eexists; split; [reflexivity |]; split;
     [apply (bool_decide_unpack _); vm_compute; exact I |]);
    first [by right | left; apply Hlisted; lia].
Qed.

Lemma next_message_at (i : nat) (m : string) :
  loadingMessages !! i = Some m →
  next_message m = loadingMessages !! ((i + 1) mod 6)%nat.
Proof.
  intros H.
  do 6 (destruct i as [| i]; [injection H as <-; reflexivity |]).
  discriminate H.
Qed.

(** X22. The loading messages rotate with period six: starting from the
    message at position [i], [k] runs of the updater show the message at
    position [(i + k) mod 6]; so the six messages follow one another in
    list order and the last is followed by the first. *)
Theorem loading_messages_rotate (i k : nat) (m : string) :
  loadingMessages !! i = Some m →
  ticks k m = loadingMessages !! ((i + k) mod 6)%nat.
Proof.
  revert i m. induction k as [| k IH]; intros i m Hm; cbn [ticks].
  - rewrite Nat.add_0_r.
    assert (i < 6)%nat by (apply lookup_lt_Some in Hm; exact Hm).
    by rewrite Nat.mod_small.
  - rewrite (next_message_at i m Hm).
    assert (Hlt : ((i + 1) mod 6 < 6)%nat) by (apply Nat.mod_upper_bound; lia).
    destruct (lookup_lt_is_Some_2 loadingMessages _ Hlt) as [m' Hm'].
    rewrite Hm'. cbn [mbind option_bind].
    rewrite (IH _ m' Hm'). f_equal.
    rewrite Nat.Div0.add_mod_idemp_l. f_equal. lia.
Qed.

Lemma loading_messages_rotate_witness :
  ticks 8 "Applying cinematic magic..."
  = Some "Finalizing the video masterpiece...".
Proof.
  apply (loading_messages_rotate 3 8 "Applying cinematic magic...").
  reflexivity.
Defined.

End VideoFacts.
